(** * Visual Authentication Gateway: the session lifecycle of [backend/server.js]

    A shallow embedding of the challenge/response server.  The session table
    is a finite map from session ids to session records; a handler is a
    function from the table, the request body (or the fields read off it)
    and the readings of the clock and of the random source to the new table
    and the HTTP response.  What a handler throws is caught where the source
    catches it.

    [backend/server.js] holds two generations of the server one after the
    other.  The second one (sessions with expiry, attempt budget and error
    codes) is the one embedded at top level; the handler of the first one
    that checks a pattern is kept in [Module Legacy]. *)

From Stdlib Require Import ZArith Lia.
From stdpp Require Import base option list strings pretty gmap fin_maps.

Local Open Scope string_scope.
Set Warnings "-register-all".

(** ** The digest of [crypto.createHash('sha256')]

    Node's [crypto] module is an external collaborator; its digest is
    modelled after FIPS 180-4 on the bytes of the (UTF-8) string, so that the
    hash stored in the user database can be compared with the hash of a
    submitted pattern by evaluation. *)
Module SHA256.

Local Open Scope Z_scope.

Definition mask32 : Z := 0xffffffff.
Definition add32 (a b : Z) : Z := Z.land (a + b) mask32.
Definition rotr (n x : Z) : Z :=
  Z.land (Z.lor (Z.shiftr x n) (Z.shiftl x (32 - n))) mask32.
Definition not32 (x : Z) : Z := Z.lxor x mask32.

Definition Ch (x y z : Z) : Z := Z.lxor (Z.land x y) (Z.land (not32 x) z).
Definition Maj (x y z : Z) : Z :=
  Z.lxor (Z.lxor (Z.land x y) (Z.land x z)) (Z.land y z).
Definition Sigma0 (x : Z) : Z := Z.lxor (Z.lxor (rotr 2 x) (rotr 13 x)) (rotr 22 x).
Definition Sigma1 (x : Z) : Z := Z.lxor (Z.lxor (rotr 6 x) (rotr 11 x)) (rotr 25 x).
Definition sigma0 (x : Z) : Z := Z.lxor (Z.lxor (rotr 7 x) (rotr 18 x)) (Z.shiftr x 3).
Definition sigma1 (x : Z) : Z := Z.lxor (Z.lxor (rotr 17 x) (rotr 19 x)) (Z.shiftr x 10).

(** The constants are the first 32 bits of the fractional parts of the
    cube roots (round constants) and square roots (initial hash value) of
    the first primes. *)
Definition is_prime (n : nat) : bool :=
  forallb (λ d, negb (n mod d =? 0)%nat) (seq 2 (n - 2)).

Definition primes (n : nat) : list Z :=
  Z.of_nat <$> take n (filter (λ p, is_prime p) (seq 2 400)).

(** The integer cube root, one bit at a time from bit [n - 1] down. *)
Fixpoint cube_root (n : nat) (x r : Z) : Z :=
  match n with
  | O => r
  | S n' =>
      let c := r + 2 ^ Z.of_nat n' in
      cube_root n' x (if c * c * c <=? x then c else r)
  end.

Definition K : list Z :=
  (λ p, Z.land (cube_root 40 (p * 2 ^ 96) 0) mask32) <$> primes 64.

Definition H0 : list Z :=
  (λ p, Z.land (Z.sqrt (p * 2 ^ 64)) mask32) <$> primes 8.

Definition bytes_of_string (s : string) : list Z :=
  (λ c, Z.of_N (Ascii.N_of_ascii c)) <$> String.list_ascii_of_string s.

(** The 64-bit big-endian bit length closing the padding. *)
Definition length_bytes (bits : Z) : list Z :=
  (λ i : nat, Z.land (Z.shiftr bits (8 * (7 - Z.of_nat i))) 0xff) <$> seq 0 8.

Definition pad (msg : list Z) : list Z :=
  let l := Z.of_nat (length msg) in
  let zeros := Z.to_nat ((55 - l) mod 64) in
  msg ++ [0x80] ++ replicate zeros 0 ++ length_bytes (8 * l).

Fixpoint words (bs : list Z) : list Z :=
  match bs with
  | b0 :: b1 :: b2 :: b3 :: rest =>
      (Z.shiftl b0 24 + Z.shiftl b1 16 + Z.shiftl b2 8 + b3) :: words rest
  | _ => []
  end.

Fixpoint blocks (n : nat) (ws : list Z) : list (list Z) :=
  match n with
  | O => []
  | S n' => take 16 ws :: blocks n' (drop 16 ws)
  end.

Fixpoint schedule (n : nat) (w : list Z) : list Z :=
  match n with
  | O => w
  | S n' =>
      let t := length w in
      let at_ (k : nat) := w !!! (t - k)%nat in
      schedule n'
        (w ++ [add32 (add32 (sigma1 (at_ 2%nat)) (at_ 7%nat))
                     (add32 (sigma0 (at_ 15%nat)) (at_ 16%nat))])
  end.

Definition round (st : list Z) (kw : Z * Z) : list Z :=
  match st with
  | [a; b; c; d; e; f; g; h] =>
      let t1 := add32 (add32 (add32 h (Sigma1 e)) (add32 (Ch e f g) kw.1)) kw.2 in
      let t2 := add32 (Sigma0 a) (Maj a b c) in
      [add32 t1 t2; a; b; c; add32 d t1; e; f; g]
  | _ => st
  end.

Definition compress (h : list Z) (block : list Z) : list Z :=
  let w := schedule 48 block in
  zip_with add32 h (foldl round h (zip K w)).

Definition hex_digit (d : Z) : string :=
  String.substring (Z.to_nat d) 1 "0123456789abcdef".

Definition hex_word (w : Z) : string :=
  String.concat ""
    ((λ i : nat, hex_digit (Z.land (Z.shiftr w (4 * (7 - Z.of_nat i))) 0xf)) <$> seq 0 8).

(** [createHash('sha256').update(s).digest('hex')] *)
Definition hex_digest (s : string) : string :=
  let ws := words (pad (bytes_of_string s)) in
  String.concat "" (hex_word <$> foldl compress H0 (blocks (length ws / 16) ws)).

End SHA256.

(** ** JavaScript values

    The parsed JSON body of a request, and the objects the handlers send
    back.  [JNum n] is the number an integer literal [n] is parsed to (the
    nearest double), [JReal shown] a number that is not an integer, given by
    the text [String(x)] prints for it; [JUndefined] is what reading a
    missing field yields.  An object is the list of its own properties, a
    later entry for a key replacing an earlier one. *)
Inductive jsval : Type :=
  | JUndefined
  | JNull
  | JBool (b : bool)
  | JNum (n : Z)
  | JStr (s : string)
  | JArr (elems : list jsval)
  | JObj (fields : list (string * jsval))
  | JReal (shown : string).

(** ** Numbers as text

    [Number::toString] on the number an integer literal stands for: the
    literal is rounded to the nearest double, and the double is printed with
    the fewest digits that read back as the same double. *)
Module Number.

Local Open Scope Z_scope.

(** The double nearest to the integer [v > 0] (ties to the even mantissa), as
    a mantissa of at most 53 bits and a binary exponent; [None] when it is
    beyond the largest double, where the value is [Infinity]. *)
Definition nearest_double (v : Z) : option (Z * Z) :=
  let bits := Z.log2 v + 1 in
  if bits <=? 53 then Some (v, 0)
  else
    let e := bits - 53 in
    let m := Z.shiftr v e in
    let rest := v - Z.shiftl m e in
    let half := 2 ^ (e - 1) in
    let m := if (half <? rest) || ((rest =? half) && Z.odd m) then m + 1 else m in
    let '(m, e) := if m =? 2 ^ 53 then (2 ^ 52, e + 1) else (m, e) in
    if 1023 <? e + 52 then None else Some (m, e).

Definition digits (v : Z) : string := pretty v.

(** The candidates with [k] digits for the double [m * 2^e] (with [e > 0]) of
    [N] decimal digits: the two multiples of [10^(N-k)] around it, as pairs of
    the digits [s] and the power of ten, and with one digit also [10^N]. *)
Definition candidates (d N k : Z) : list (Z * Z) :=
  let p := N - k in
  let s := d / 10 ^ p in
  [(s, p)] ++ (if s + 1 <? 10 ^ k then [(s + 1, p)] else [])
  ++ (if k =? 1 then [(1, N)] else []).

(** A candidate reads back as the double: it lies within half a gap of it,
    the ends counting when the mantissa is even. *)
Definition reads_back (m e : Z) (c : Z * Z) : bool :=
  let d := m * 2 ^ e in
  let v := c.1 * 10 ^ c.2 in
  let below := if m =? 2 ^ 52 then 2 ^ e else 2 ^ (e + 1) in
  let above := 2 ^ (e + 1) in
  if Z.even m
  then (4 * d - below <=? 4 * v) && (4 * v <=? 4 * d + above)
  else (4 * d - below <? 4 * v) && (4 * v <? 4 * d + above).

(** Of two candidates the closer one, the even one at equal distance. *)
Definition closer (d : Z) (a b : Z * Z) : Z * Z :=
  let da := Z.abs (a.1 * 10 ^ a.2 - d) in
  let db := Z.abs (b.1 * 10 ^ b.2 - d) in
  if da <? db then a
  else if db <? da then b
  else if Z.even a.1 then a else b.

Definition best (d : Z) (cs : list (Z * Z)) : option (Z * Z) :=
  match cs with
  | [] => None
  | c :: cs => Some (foldl (closer d) c cs)
  end.

(** The shortest digits that read back, searched from [k] digits upwards. *)
Fixpoint shortest (fuel : nat) (m e N k : Z) : Z * Z :=
  let d := m * 2 ^ e in
  match fuel with
  | O => (d, 0)
  | S fuel' =>
      match best d (filter (λ c, reads_back m e c) (candidates d N k)) with
      | Some c => c
      | None => shortest fuel' m e N (k + 1)
      end
  end.

(** The digits [s] and the decimal exponent [n] laid out as [Number::toString]
    does: plain up to 21 digits, with an exponent beyond. *)
Definition layout (s p : Z) : string :=
  let k := Z.of_nat (String.length (digits s)) in
  let n := k + p in
  if n <=? 21 then digits s +:+ String.concat "" (replicate (Z.to_nat p) "0")
  else
    match digits s with
    | String c rest =>
        String c (if k =? 1 then "" else "." +:+ rest) +:+ "e+" +:+ digits (n - 1)
    | EmptyString => ""
    end.

Definition toString_pos (v : Z) : string :=
  match nearest_double v with
  | None => "Infinity"
  | Some (m, e) =>
      if e =? 0 then digits m
      else
        let d := m * 2 ^ e in
        let N := Z.of_nat (String.length (digits d)) in
        let c := shortest 400 m e N 1 in
        layout c.1 c.2
  end.

(** [String(x)] for the number the integer literal [n] is parsed to. *)
Definition toString (n : Z) : string :=
  if n =? 0 then "0"
  else if n <? 0 then "-" +:+ toString_pos (- n)
  else toString_pos n.

(** The number itself, for [===]: the sign and the double. *)
Definition value (n : Z) : Z * option (Z * Z) :=
  (Z.sgn n, nearest_double (Z.abs n)).

End Number.

(** [!v] is [negb (truthy v)]. *)
Definition truthy (v : jsval) : bool :=
  match v with
  | JUndefined | JNull => false
  | JBool b => b
  | JNum n => negb (n =? 0)%Z
  | JStr s => negb (String.eqb s "")
  | JArr _ | JObj _ | JReal _ => true
  end.

Definition typeof (v : jsval) : string :=
  match v with
  | JUndefined => "undefined"
  | JBool _ => "boolean"
  | JNum _ | JReal _ => "number"
  | JStr _ => "string"
  | JNull | JArr _ | JObj _ => "object"
  end.

Definition isArray (v : jsval) : bool :=
  match v with JArr _ => true | _ => false end.

(** [===] on the values compared in the handlers. *)
Definition strict_eq (a b : jsval) : bool :=
  match a, b with
  | JUndefined, JUndefined | JNull, JNull => true
  | JBool x, JBool y => Bool.eqb x y
  | JNum x, JNum y => bool_decide (Number.value x = Number.value y)
  | JReal x, JReal y => String.eqb x y
  | JStr x, JStr y => String.eqb x y
  | _, _ => false
  end.

(** The characters of a string value; the handlers use a value as a key
    only behind a [typeof v !== 'string'] guard. *)
Definition chars (v : jsval) : string :=
  match v with JStr s => s | _ => "" end.

(** [Array.prototype.join(sep)] on strings. *)
Definition join (sep : string) (l : list string) : string := String.concat sep l.

(** [obj.hasOwnProperty(k)] and [obj[k]] on the own properties of a parsed
    object. *)
Definition hasOwn (k : string) (fields : list (string * jsval)) : bool :=
  existsb (λ kv, String.eqb k kv.1) fields.

Definition own (k : string) (fields : list (string * jsval)) : jsval :=
  default JUndefined (snd <$> List.find (λ kv, String.eqb k kv.1) (reverse fields)).

(** The string conversion [join] applies to the elements of an array:
    [undefined] and [null] give the empty string and a nested array is
    joined with commas.  An object is converted by calling its [toString]:
    a parsed object inherits the one that prints ["[object Object]"], unless
    it has a property [toString] of its own, which is no function; then the
    conversion falls back on [valueOf], gets no primitive value either way,
    and throws a [TypeError] ([None]).  (The conversion recurses as deep as
    the arrays are nested; the depth the stack of the runtime bears is not
    part of the model.) *)
Fixpoint toString (v : jsval) : option string :=
  match v with
  | JUndefined => Some "undefined"
  | JNull => Some "null"
  | JBool true => Some "true"
  | JBool false => Some "false"
  | JNum n => Some (Number.toString n)
  | JReal shown => Some shown
  | JStr s => Some s
  | JArr elems =>
      join "," <$>
        (fix each (l : list jsval) : option (list string) :=
           match l with
           | [] => Some []
           | e :: l =>
               match (match e with
                      | JUndefined | JNull => Some ""
                      | _ => toString e
                      end) with
               | Some s => cons s <$> each l
               | None => None
               end
           end) elems
  | JObj fields => if hasOwn "toString" fields then None else Some "[object Object]"
  end.

(** [elems.join(sep)], which throws where the conversion of an element
    does. *)
Definition join_elems (sep : string) (elems : list jsval) : option string :=
  join sep <$>
    mapM (λ e, match e with JUndefined | JNull => Some "" | _ => toString e end) elems.

(** An HTTP response: [res.status(n).json(obj)], the object as its list of
    fields in the order they are written. *)
Record response := Response {
  status : nat;
  json : list (string * jsval)
}.

(** Reading a field of a response object. *)
Definition field (k : string) (r : response) : jsval :=
  default JUndefined (snd <$> List.find (λ kv, String.eqb k kv.1) (json r)).

(** ** The random source

    [crypto.randomInt] draws from the operating system; the draws it hands
    out during one request are the list the computation reads from.  A
    computation that needs a draw when the list is used up is [Starved]: it
    is still running. *)
Inductive outcome (A : Type) : Type :=
  | Ret (a : A)
  | Throw (e : string)
  | Starved.
Arguments Ret {A} a.
Arguments Throw {A} e.
Arguments Starved {A}.

Definition Rand (A : Type) : Type := list nat → outcome (A * list nat).

#[global] Instance Rand_ret : MRet Rand := λ A a draws, Ret (a, draws).
#[global] Instance Rand_bind : MBind Rand := λ A B k m draws,
  match m draws with
  | Ret (a, rest) => k a rest
  | Throw e => Throw e
  | Starved => Starved
  end.

Definition ERR_OUT_OF_RANGE : string := "ERR_OUT_OF_RANGE".

(** [crypto.randomInt(min, max)]: an integer of [min, max); a [RangeError]
    when [max <= min], raised before any entropy is read. *)
Definition randomInt (min max : nat) : Rand nat := λ draws,
  if decide (min < max) then
    match draws with
    | [] => Starved
    | r :: rest => Ret (min + r mod (max - min), rest)
    end
  else Throw ERR_OUT_OF_RANGE.

(** ** Security configuration *)

Definition SESSION_TIMEOUT_MS : Z := 60000.

Record User := {
  user_userId : string;
  user_secretHash : string
}.

(** [USER_DATABASE]: the demo user.  (Its [createdAt] stamp, the time the
    process started, is never read and is left out.) *)
Definition USER_DATABASE : gmap string User :=
  {[ "U123" := {| user_userId := "U123";
                  user_secretHash :=
                    "71d9d0d740e5d44281516dc085c9ad814e4ea9570dcdcfd01cbb1971862113c8" |} ]}.

(** The property names every object literal inherits from
    [Object.prototype]. *)
Definition OBJECT_PROTOTYPE : list string :=
  [ "constructor"; "__proto__"; "hasOwnProperty"; "isPrototypeOf";
    "propertyIsEnumerable"; "toLocaleString"; "toString"; "valueOf";
    "__defineGetter__"; "__defineSetter__"; "__lookupGetter__";
    "__lookupSetter__" ].

(** What [USER_DATABASE[user_id]] evaluates to: a registered entry, a member
    inherited from the prototype (a truthy value without [secretHash]), or
    [undefined]. *)
Inductive property : Type :=
  | Own (u : User)
  | Inherited
  | Missing.

Definition USER_DATABASE_get (user_id : string) : property :=
  match USER_DATABASE !! user_id with
  | Some u => Own u
  | None => if bool_decide (user_id ∈ OBJECT_PROTOTYPE) then Inherited else Missing
  end.

(** [user.secretHash] *)
Definition secretHash_of (p : property) : jsval :=
  match p with
  | Own u => JStr (user_secretHash u)
  | Inherited | Missing => JUndefined
  end.

Definition EMOJI_POOL : list string :=
  [ "🍎"; "🎧"; "🔥"; "🚀"; "⭐"; "🔒";
    "🔑"; "💎"; "🎯"; "🌟"; "⚡"; "🔐" ].

(** ** Helper functions *)

(** [hashVisualPattern(pattern)]; it throws where [pattern.join('|')]
    does. *)
Definition hashVisualPattern (pattern : list jsval) : outcome string :=
  match join_elems "|" pattern with
  | Some patternString => Ret (SHA256.hex_digest patternString)
  | None => Throw "TypeError"
  end.

(** [[shuffled[i], shuffled[j]] = [shuffled[j], shuffled[i]]]; both indices
    are inside the array wherever the shuffle uses it. *)
Definition swap (shuffled : list string) (i j : nat) : list string :=
  let xi := shuffled !!! i in
  let xj := shuffled !!! j in
  <[j:=xi]> (<[i:=xj]> shuffled).

(** The loop of [shuffleArray], from index [i] down to 1. *)
Fixpoint shuffleFrom (i : nat) (shuffled : list string) : Rand (list string) :=
  match i with
  | O => mret shuffled
  | S i' =>
      j ← randomInt 0 (i + 1);
      shuffleFrom i' (swap shuffled i j)
  end.

(** [shuffleArray(array)] *)
Definition shuffleArray (array : list string) : Rand (list string) :=
  shuffleFrom (length array - 1) array.

(** [a.includes(e)] *)
Definition includes (e : string) (a : list string) : bool := bool_decide (e ∈ a).

(** The [while (gridEmojis.length < 9)] loop of [generateShuffledGrid].
    Every iteration reads one draw, so [fuel] iterations with [fuel] above
    the number of draws at hand always reach a result. *)
Fixpoint fillGrid (fuel : nat) (availableEmojis gridEmojis : list string)
  : Rand (list string) :=
  if decide (length gridEmojis < 9) then
    match fuel with
    | O => λ _, Starved
    | S fuel' =>
        randomIndex ← randomInt 0 (length availableEmojis);
        let emoji := availableEmojis !!! randomIndex in
        if negb (includes emoji gridEmojis)
        then fillGrid fuel' availableEmojis (gridEmojis ++ [emoji])
        else fillGrid fuel' availableEmojis gridEmojis
    end
  else mret gridEmojis.

(** [generateShuffledGrid(secretPattern)], with the pool it closes over as
    an argument. *)
Definition generateShuffledGridFrom (pool secretPattern : list string)
  : Rand (list string) := λ draws,
  let availableEmojis := filter (λ e, negb (includes e secretPattern)) pool in
  (gridEmojis ← fillGrid (S (length draws)) availableEmojis secretPattern;
   shuffleArray gridEmojis) draws.

Definition generateShuffledGrid (secretPattern : list string) : Rand (list string) :=
  generateShuffledGridFrom EMOJI_POOL secretPattern.


(** ** Sessions *)

Record Session := mkSession {
  sessionId : string;
  userId : string;
  secretHash : jsval;
  grid : list string;
  createdAt : Z;
  expiresAt : Z;
  used : bool;
  attempts : Z;
  maxAttempts : Z
}.

(** [session.attempts = n] and [session.used = b] on a session object. *)
Definition set_attempts (n : Z) (s : Session) : Session :=
  mkSession (sessionId s) (userId s) (secretHash s) (grid s) (createdAt s)
            (expiresAt s) (used s) n (maxAttempts s).
Definition set_used (b : bool) (s : Session) : Session :=
  mkSession (sessionId s) (userId s) (secretHash s) (grid s) (createdAt s)
            (expiresAt s) b (attempts s) (maxAttempts s).

(** [const sessions = new Map()]: the table the handlers share. *)
Abbreviation table := (gmap string Session).

(** [cleanupExpiredSessions()], run every 30 seconds, at clock reading
    [now]. *)
Definition cleanupExpiredSessions (now : Z) (sessions : table) : table :=
  filter (λ kv : string * Session, ¬ (now > expiresAt kv.2)%Z) sessions.

(** ** API endpoints *)

Definition fail (code : nat) (error message : string) : response :=
  Response code [("result", JStr "FAIL"); ("error", JStr error);
                 ("message", JStr message)].

Definition bad_request (message : string) : response :=
  Response 400 [("error", JStr "INVALID_REQUEST"); ("message", JStr message)].

Definition internal_error (message : string) : response :=
  Response 500 [("error", JStr "INTERNAL_ERROR"); ("message", JStr message)].

(** [try { m } catch (error) { h }] around a computation that changes the
    table only in its last step. *)
Definition try_catch {A} (m : Rand A) (h : string → Rand A) : Rand A := λ draws,
  match m draws with
  | Throw e => h e draws
  | r => r
  end.

(** [const secretPattern = ['🍎', '🎧', '🔥']; // Demo secret for U123], the
    pattern [/start-auth] builds every grid from. *)
Definition DEMO_SECRET : list string := ["🍎"; "🎧"; "🔥"].

(** [const { k } = req.body]: the field [k] of the body, for the three
    field names the handlers read (no object inherits one of them).  The
    body is what [express.json()] parsed, an object or an array; for a
    request with nothing to parse [req.body] is left [undefined] or set to
    the empty object, depending on the version of the framework, and
    destructuring [undefined] throws. *)
Definition body_field (body : jsval) (k : string) : outcome jsval :=
  match body with
  | JUndefined | JNull => Throw "TypeError"
  | JObj fields => Ret (own k fields)
  | _ => Ret JUndefined
  end.

(** [POST /start-auth] from the point where the body field [user_id] has
    been read; [uuid] is what [crypto.randomUUID()] returns and [now] what
    [Date.now()] reads. *)
Definition start_auth (sessions : table) (user_id : jsval) (uuid : string) (now : Z)
  : Rand (table * response) :=
  try_catch
    (if negb (truthy user_id) || negb (String.eqb (typeof user_id) "string") then
       mret (sessions, bad_request "user_id is required and must be a string")
     else
       let user := USER_DATABASE_get (chars user_id) in
       match user with
       | Missing =>
           mret (sessions,
                 Response 404 [("error", JStr "USER_NOT_FOUND");
                               ("message", JStr "User not found in authentication system")])
       | _ =>
           let sessionId := uuid in
           let secretPattern := DEMO_SECRET in
           shuffledGrid ← generateShuffledGrid secretPattern;
           let session :=
             {| sessionId := sessionId;
                userId := chars user_id;
                secretHash := secretHash_of user;
                grid := shuffledGrid;
                createdAt := now;
                expiresAt := now + SESSION_TIMEOUT_MS;
                used := false;
                attempts := 0;
                maxAttempts := 3 |} in
           mret (<[sessionId := session]> sessions,
                 Response 200 [("session_id", JStr sessionId);
                               ("grid", JArr (JStr <$> shuffledGrid));
                               ("expires_in", JNum (SESSION_TIMEOUT_MS / 1000))])
       end)
    (λ error, mret (sessions, internal_error "Authentication system error")).

(** [POST /start-auth] on the request body: the destructuring of the body
    is the first statement of the [try] block. *)
Definition post_start_auth (sessions : table) (body : jsval) (uuid : string) (now : Z)
  : Rand (table * response) :=
  match body_field body "user_id" with
  | Ret user_id => start_auth sessions user_id uuid now
  | _ => mret (sessions, internal_error "Authentication system error")
  end.

(** [input.length] *)
Definition length_of (v : jsval) : Z :=
  match v with JArr elems => Z.of_nat (length elems) | _ => 0 end.

Definition elems_of (v : jsval) : list jsval :=
  match v with JArr elems => elems | _ => [] end.

(** [POST /verify-auth] from the point where the body fields [session_id]
    and [input] have been read; [now] is what [Date.now()] reads and [iso]
    what [new Date().toISOString()] gives when the answer is sent.  The
    attempt is counted on the stored object before the candidate is hashed:
    when the hashing throws, the [catch] of the handler answers with status
    500 and the session stays in the table with the attempt counted. *)
Definition verify_auth (sessions : table) (session_id input : jsval)
    (now : Z) (iso : string) : table * response :=
  if negb (truthy session_id) || negb (String.eqb (typeof session_id) "string") then
    (sessions, bad_request "session_id is required")
  else if negb (truthy input) || negb (isArray input) || negb (length_of input =? 3)%Z then
    (sessions, bad_request "input must be an array of exactly 3 emojis")
  else
    let sid := chars session_id in
    match sessions !! sid with
    | None => (sessions, fail 401 "INVALID_SESSION" "Session not found or expired")
    | Some session =>
        if used session then
          (delete sid sessions, fail 401 "SESSION_USED" "Session has already been used")
        else if (now >? expiresAt session)%Z then
          (delete sid sessions, fail 401 "SESSION_EXPIRED" "Session has expired")
        else if (attempts session >=? maxAttempts session)%Z then
          (delete sid sessions,
           fail 401 "MAX_ATTEMPTS" "Maximum verification attempts exceeded")
        else
          (* session.attempts++ : the object in the table is the one updated *)
          let session := set_attempts (attempts session + 1) session in
          let sessions := <[sid := session]> sessions in
          match hashVisualPattern (elems_of input) with
          | Ret inputHash =>
              let isMatch := strict_eq (JStr inputHash) (secretHash session) in
              if isMatch then
                let session := set_used true session in
                let sessions := delete sid (<[sid := session]> sessions) in
                (sessions,
                 Response 200 [("result", JStr "PASS"); ("user_id", JStr (userId session));
                               ("verified_at", JStr iso)])
              else if (attempts session >=? maxAttempts session)%Z then
                (delete sid sessions,
                 fail 401 "MAX_ATTEMPTS" "Maximum verification attempts exceeded")
              else
                (sessions,
                 Response 401 [("result", JStr "FAIL"); ("error", JStr "INVALID_PATTERN");
                               ("message", JStr "Visual pattern does not match");
                               ("attempts_remaining",
                                JNum (maxAttempts session - attempts session))])
          | _ =>
              (* catch (error) *)
              (sessions, internal_error "Verification system error")
          end
    end.

(** [POST /verify-auth] on the request body. *)
Definition post_verify_auth (sessions : table) (body : jsval) (now : Z) (iso : string)
  : table * response :=
  match body_field body "session_id", body_field body "input" with
  | Ret session_id, Ret input => verify_auth sessions session_id input now iso
  | _, _ => (sessions, internal_error "Verification system error")
  end.

(** ** The server as a transition system

    One event per handler run, with the fields read off the body of the
    request; the table starts empty.  (A request without a body is answered
    with status 500 and leaves the table as it is.)  A [/start-auth] whose
    grid loop is never released by the random source sends no answer and
    leaves the table as it was. *)
Inductive event : Type :=
  | StartAuth (user_id : jsval) (uuid : string) (now : Z) (draws : list nat)
  | VerifyAuth (session_id input : jsval) (now : Z) (iso : string)
  | Cleanup (now : Z).

Definition step (sessions : table) (ev : event) : table :=
  match ev with
  | StartAuth user_id uuid now draws =>
      match start_auth sessions user_id uuid now draws with
      | Ret (result, _) => result.1
      | _ => sessions
      end
  | VerifyAuth session_id input now iso =>
      (verify_auth sessions session_id input now iso).1
  | Cleanup now => cleanupExpiredSessions now sessions
  end.

Definition run (sessions : table) (evs : list event) : table := foldl step sessions evs.

Inductive reachable : table → Prop :=
  | reachable_init : reachable ∅
  | reachable_step sessions ev : reachable sessions → reachable (step sessions ev).


(** ** The first generation of the server *)
Module Legacy.

(** [{hash: hash(user.visual_secret), user: user_id}] *)
Record Session := mkSession {
  hash_ : string;
  user : jsval
}.

(** [const hash = p => crypto.createHash("sha256").update(p.join("|")).digest("hex")];
    only an array has a [join] to call, and the call throws where the
    conversion of an element does. *)
Definition hash (p : jsval) : outcome string :=
  match p with
  | JArr elems =>
      match join_elems "|" elems with
      | Some joined => Ret (SHA256.hex_digest joined)
      | None => Throw "TypeError"
      end
  | _ => Throw "TypeError"
  end.

(** [sessions.get(session_id)]: the keys of the map are the ids handed out
    by [crypto.randomUUID()], all of them strings. *)
Definition get (sessions : gmap string Session) (session_id : jsval) : option Session :=
  match session_id with
  | JStr k => sessions !! k
  | _ => None
  end.

(** [POST /verify-auth] from the point where the body fields have been
    read; an exception leaves the handler before the table is touched. *)
Definition verify_auth (sessions : gmap string Session) (session_id input : jsval)
  : outcome (gmap string Session * response) :=
  match get sessions session_id with
  | None => Ret (sessions, Response 200 [("result", JStr "FAIL")])
  | Some s =>
      match hash input with
      | Ret h =>
          let ok := String.eqb h (hash_ s) in
          let sessions := if ok then delete (chars session_id) sessions else sessions in
          Ret (sessions, Response 200 [("result", JStr (if ok then "PASS" else "FAIL"))])
      | Throw e => Throw e
      | Starved => Starved
      end
  end.

(** [POST /verify-auth] on the request body; nothing catches what the
    destructuring of a missing body throws. *)
Definition post_verify_auth (sessions : gmap string Session) (body : jsval)
  : outcome (gmap string Session * response) :=
  match body_field body "session_id", body_field body "input" with
  | Ret session_id, Ret input => verify_auth sessions session_id input
  | Throw e, _ | _, Throw e => Throw e
  | _, _ => Starved
  end.

End Legacy.

(** ** Vocabulary of the statements *)

(** The two guards at the head of [/verify-auth] let the request through. *)
Definition valid_request (session_id input : jsval) : bool :=
  truthy session_id && String.eqb (typeof session_id) "string"
  && truthy input && isArray input && (length_of input =? 3)%Z.

(** The request has a body to destructure, and what the destructuring
    reads off it. *)
Definition has_body (body : jsval) : bool :=
  match body with JUndefined | JNull => false | _ => true end.

Definition read (k : string) (body : jsval) : jsval :=
  match body_field body k with Ret v => v | _ => JUndefined end.

(** The error kinds a [FAIL] verdict is documented to carry. *)
Definition FAIL_KINDS : list jsval :=
  JStr <$> ["INVALID_SESSION"; "SESSION_USED"; "SESSION_EXPIRED"; "MAX_ATTEMPTS";
            "INVALID_PATTERN"].

(** A candidate that hashes to something else than the secret of the
    session.  (A candidate whose hashing throws is compared with nothing.) *)
Definition wrong (s : Session) (elems : list jsval) : Prop :=
  ∃ inputHash, hashVisualPattern elems = Ret inputHash
               ∧ strict_eq (JStr inputHash) (secretHash s) = false.

(** A session as [/start-auth] leaves it. *)
Definition fresh (s : Session) : Prop :=
  used s = false ∧ attempts s = 0%Z ∧ maxAttempts s = 3%Z.

(** [uuid] is handed out by [crypto.randomUUID()] during [ev]. *)
Definition mints (uuid : string) (ev : event) : Prop :=
  match ev with
  | StartAuth _ uuid' _ _ => uuid' = uuid
  | _ => False
  end.

(** The symbols of the pool a grid may be filled up with. *)
Definition eligible (pool secretPattern : list string) : list string :=
  filter (λ e, negb (includes e secretPattern)) pool.

(** The symbols the draws select from [availableEmojis]. *)
Definition picks (availableEmojis : list string) (draws : list nat) : list string :=
  omap (λ r, availableEmojis !! (r mod length availableEmojis)) draws.

(** How many different symbols outside [gridEmojis] the draws select. *)
Definition fresh_hits (availableEmojis gridEmojis : list string) (draws : list nat) : nat :=
  length (remove_dups (filter (λ e, e ∉ gridEmojis) (picks availableEmojis draws))).

(** The draws release [generateShuffledGrid]: a first part selects enough
    different decoys to fill the grid, and what follows feeds the shuffle of
    a 9-symbol grid. *)
Definition releases (pool secretPattern : list string) (draws : list nat) : Prop :=
  ∃ d1 d2, draws = (d1 ++ d2)%list
           ∧ (9 - length secretPattern ≤ fresh_hits (eligible pool secretPattern) secretPattern d1)%nat
           ∧ (8 ≤ length d2)%nat.

(** [count x l]: how often [x] occurs in [l]. *)
Definition count (x : string) (l : list string) : nat :=
  length (filter (λ y, y = x) l).

(** What holds of every session while it is in the table. *)
Definition session_ok (s : Session) : Prop :=
  used s = false
  ∧ (0 ≤ attempts s ≤ maxAttempts s)%Z
  ∧ maxAttempts s = 3%Z
  ∧ expiresAt s = (createdAt s + SESSION_TIMEOUT_MS)%Z.

Definition table_ok (sessions : table) : Prop :=
  map_Forall (λ _ s, session_ok s) sessions.

(** The record [/start-auth] stores. *)
Definition new_session (uuid uid : string) (grid : list string) (now : Z) : Session :=
  {| sessionId := uuid;
     userId := uid;
     secretHash := secretHash_of (USER_DATABASE_get uid);
     grid := grid;
     createdAt := now;
     expiresAt := now + SESSION_TIMEOUT_MS;
     used := false;
     attempts := 0;
     maxAttempts := 3 |}.

(** The answer [/start-auth] sends with it. *)
Definition challenge (uuid : string) (grid : list string) : response :=
  Response 200 [("session_id", JStr uuid);
                ("grid", JArr (JStr <$> grid));
                ("expires_in", JNum 60)].

(** The answer to a wrong pattern while attempts remain. *)
Definition mismatch (remaining : Z) : response :=
  Response 401 [("result", JStr "FAIL"); ("error", JStr "INVALID_PATTERN");
                ("message", JStr "Visual pattern does not match");
                ("attempts_remaining", JNum remaining)].

(** The answer to the pattern that matches. *)
Definition pass (uid iso : string) : response :=
  Response 200 [("result", JStr "PASS"); ("user_id", JStr uid);
                ("verified_at", JStr iso)].

Definition INVALID_SESSION : response :=
  fail 401 "INVALID_SESSION" "Session not found or expired".
Definition SESSION_USED : response :=
  fail 401 "SESSION_USED" "Session has already been used".
Definition SESSION_EXPIRED : response :=
  fail 401 "SESSION_EXPIRED" "Session has expired".
Definition MAX_ATTEMPTS : response :=
  fail 401 "MAX_ATTEMPTS" "Maximum verification attempts exceeded".

(** The answer of the [catch] of [/verify-auth]. *)
Definition INTERNAL_ERROR : response :=
  internal_error "Verification system error".

(** An element [join] cannot convert, and a candidate that holds it. *)
Definition unprintable : jsval := JObj [("toString", JNum 1)].
Definition demo_crash : list jsval := [unprintable; JStr "🎧"; JStr "🔥"].

(** ** A run of the demo

    The table after one [/start-auth] for [U123] at clock reading 1000, the
    random source handing out the id and the draws below; the session
    expires at 61000. *)
Definition demo_uuid : string := "3b241101-e2bb-4255-8caf-4136c566a962".
Definition demo_draws : list nat := [0; 1; 1; 2; 3; 4; 5; 7; 3; 0; 5; 1; 2; 0; 1; 6].
Definition demo_table : table :=
  step ∅ (StartAuth (JStr "U123") demo_uuid 1000 demo_draws).

(** The pattern of [U123] as a request body carries it, and the elements of
    a wrong candidate. *)
Definition demo_answer : jsval := JArr (JStr <$> DEMO_SECRET).
Definition demo_guess : list jsval := JStr <$> ["🍎"; "🎧"; "🚀"].

(** The outcome of a [/start-auth] that stores a session for the registered
    user [u] and answers with the challenge: one record is put in the table
    under the new id, with [attempts = 0], [used = false], [createdAt = now]
    and [expiresAt] 60 seconds later, the other entries stay as they are, and
    the answer carries the id, the grid and the time to live. *)
Definition session_created (sessions : table) (uid : string) (u : User)
    (uuid : string) (now : Z) (res : outcome (table * response * list nat)) : Prop :=
  ∃ (grid : list string) (rest : list nat) (sessions' : table),
    let session :=
      {| sessionId := uuid; userId := uid; secretHash := JStr (user_secretHash u);
         grid := grid; createdAt := now; expiresAt := now + 60 * 1000;
         used := false; attempts := 0; maxAttempts := 3 |} in
    res = Ret ((sessions',
                Response 200 [("session_id", JStr uuid);
                              ("grid", JArr (JStr <$> grid));
                              ("expires_in", JNum 60)]), rest)
    ∧ sessions' = <[uuid := session]> sessions
    ∧ (∀ other, other ≠ uuid → sessions' !! other = sessions !! other)
    ∧ (sessions !! uuid = None → size sessions' = S (size sessions)).

(** ** The diagnostic endpoint *)

Section session_status.

(** [new Date(t).toISOString()], the rendering of a time stamp by the
    JavaScript runtime. *)
Variable toISOString : Z → string.

(** [GET /session-status/:sessionId], with [id] the route parameter and
    [now] what [Date.now()] reads. *)
Definition session_status (sessions : table) (id : string) (now : Z) : response :=
  match sessions !! id with
  | None =>
      Response 404 [("exists", JBool false);
                    ("message", JStr "Session not found or expired")]
  | Some session =>
      let timeRemaining := Z.max 0 (expiresAt session - now) in
      Response 200 [("exists", JBool true);
                    ("session_id", JStr (sessionId session));
                    ("user_id", JStr (userId session));
                    ("created_at", JStr (toISOString (createdAt session)));
                    ("expires_at", JStr (toISOString (expiresAt session)));
                    ("time_remaining_seconds", JNum (timeRemaining / 1000));
                    ("used", JBool (used session));
                    ("attempts", JNum (attempts session));
                    ("max_attempts", JNum (maxAttempts session))]
  end.

End session_status.

(** ** The page script [ui/app.js]

    The part of the page that builds the candidate: the icons picked so far,
    the text of the three slots [s1], [s2], [s3], the cells carrying the
    class [selected], and the session id the page got from [/start-auth]
    ([null] until the answer arrives). *)
Module UI.

Record state := State {
  selected : list string;
  SESSION_ID : jsval;
  slots : gmap string string;
  marked : gset nat
}.

(** [let selected=[], ..., SESSION_ID=null] *)
Definition initial : state := State [] JNull ∅ ∅.

(** [select(i, e)]: a click on the cell [e] that shows the icon [i]. *)
Definition select (i : string) (e : nat) (st : state) : state :=
  if (length (selected st) <? 3)%nat && negb (includes i (selected st)) then
    let selected' := (selected st ++ [i])%list in
    State selected' (SESSION_ID st)
          (<["s" +:+ pretty (length selected') := i]> (slots st))
          ({[ e ]} ∪ marked st)
  else st.

(** The body the click on [verify] posts to [/verify-auth]:
    [{session_id: SESSION_ID, input: selected}]. *)
Definition verify_body (st : state) : jsval * jsval :=
  (SESSION_ID st, JArr (JStr <$> selected st)).

(** A run of clicks on cells, each with the icon it shows. *)
Definition clicks (cs : list (string * nat)) (st : state) : state :=
  foldl (λ st c, select c.1 c.2 st) st cs.

End UI.

(** ** Vocabulary of the further statements *)

(** A well-formed [/verify-auth] for the session [sid]. *)
Definition verifies (sid : string) (ev : event) : Prop :=
  match ev with
  | VerifyAuth session_id input _ _ =>
      session_id = JStr sid ∧ valid_request session_id input = true
  | _ => False
  end.

(** What a session record must look like to have been stored by
    [/start-auth] under the key [sid]. *)
Definition stored_ok (sid : string) (s : Session) : Prop :=
  sessionId s = sid
  ∧ length (grid s) = 9 ∧ NoDup (grid s) ∧ (∀ x, x ∈ DEMO_SECRET → x ∈ grid s)
  ∧ expiresAt s = (createdAt s + 60000)%Z
  ∧ maxAttempts s = 3%Z.

(** A [/verify-auth] whose candidate is hashed without an exception. *)
Definition compares (ev : event) : Prop :=
  match ev with
  | VerifyAuth _ input _ _ => ∃ h, hashVisualPattern (elems_of input) = Ret h
  | _ => False
  end.

(** The well-formed [/verify-auth] requests a session can still see: one for
    each attempt it has left and the one that finds it at the cap; none once
    it is gone. *)
Definition budget (sessions : table) (sid : string) : Z :=
  match sessions !! sid with
  | Some s => maxAttempts s - attempts s + 1
  | None => 0
  end.

(** A run of guesses against one session of the first generation; a request
    that throws leaves the table as it was. *)
Definition legacy_guesses (sessions : gmap string Legacy.Session) (session_id : jsval)
    (inputs : list jsval) : gmap string Legacy.Session :=
  foldl (λ tbl input,
           match Legacy.verify_auth tbl session_id input with
           | Ret (tbl', _) => tbl'
           | _ => tbl
           end) sessions inputs.

(** A table of the first generation with one session, for the demo
    pattern. *)
Definition legacy_table : gmap string Legacy.Session :=
  {[ demo_uuid :=
       Legacy.mkSession
         "71d9d0d740e5d44281516dc085c9ad814e4ea9570dcdcfd01cbb1971862113c8"
         (JStr "U123") ]}.


(** * Properties *)

Local Open Scope list_scope.
Local Open Scope nat_scope.

Arguments SHA256.hex_digest : simpl never.
Arguments hashVisualPattern : simpl never.
Arguments strict_eq : simpl never.
#[global] Opaque SHA256.hex_digest.

(** ** The digest and the registered hash *)

Example sha256_abc :
  SHA256.hex_digest "abc"
  = "ba7816bf8f01cfea414140de5dae2223b00361a396177a9cb410ff61f20015ad".
Proof. vm_compute. reflexivity. Qed.

Example sha256_empty :
  SHA256.hex_digest ""
  = "e3b0c44298fc1c149afbf4c8996fb92427ae41e4649b934ca495991b7852b855".
Proof. vm_compute. reflexivity. Qed.

Example sha256_two_blocks :
  SHA256.hex_digest "abcdbcdecdefdefgefghfghighijhijkijkljklmklmnlmnomnopnopq"
  = "248d6a61d20638b8e5c026930c3e6039a33ce45964ff2167f6ecedd419db06c1".
Proof. vm_compute. reflexivity. Qed.

(** The hash registered for [U123] is the digest of the demo secret, as the
    comment in [USER_DATABASE] says. *)
Lemma demo_secret_hash :
  hashVisualPattern (JStr <$> DEMO_SECRET)
  = Ret "71d9d0d740e5d44281516dc085c9ad814e4ea9570dcdcfd01cbb1971862113c8".
Proof. vm_compute. reflexivity. Qed.

Lemma USER_DATABASE_lookup uid u :
  USER_DATABASE !! uid = Some u →
  uid = "U123" ∧ hashVisualPattern (JStr <$> DEMO_SECRET) = Ret (user_secretHash u).
Proof.
  unfold USER_DATABASE. intros H.
  apply lookup_singleton_Some in H as [<- <-].
  split; [done|]. by rewrite demo_secret_hash.
Qed.

(** ** The string conversion *)

Lemma join_elems_strings sep (l : list string) :
  join_elems sep (JStr <$> l) = Some (join sep l).
Proof.
  unfold join_elems.
  assert (mapM (λ e, match e with JUndefined | JNull => Some "" | _ => toString e end)
            (JStr <$> l) = Some l) as ->; [|done].
  induction l as [|x l IH]; [done|]. simpl. unfold fmap in IH. by rewrite IH.
Qed.

Lemma hashVisualPattern_strings (l : list string) :
  hashVisualPattern (JStr <$> l) = Ret (SHA256.hex_digest (join "|" l)).
Proof. unfold hashVisualPattern. by rewrite join_elems_strings. Qed.

Lemma join_elems_unprintable sep before after :
  join_elems sep (before ++ unprintable :: after) = None.
Proof.
  unfold join_elems.
  assert (mapM (λ e, match e with JUndefined | JNull => Some "" | _ => toString e end)
            (before ++ unprintable :: after) = None) as ->; [|done].
  induction before as [|x l IH]; simpl; [done|]. rewrite IH.
  by destruct (match x with JUndefined | JNull => Some "" | _ => toString x end).
Qed.

Lemma join_elems_None sep elems :
  join_elems sep elems = None ↔ ∃ e, e ∈ elems ∧ toString e = None.
Proof.
  unfold join_elems. rewrite fmap_None, mapM_None, Exists_exists.
  split; intros (e & He & Hn); exists e; (split; [done|]).
  - by destruct e.
  - by destruct e.
Qed.

Lemma hashVisualPattern_throws elems :
  join_elems "|" elems = None ↔ hashVisualPattern elems = Throw "TypeError".
Proof. unfold hashVisualPattern. by destruct (join_elems "|" elems). Qed.

Lemma hashVisualPattern_outcome elems :
  (∃ h, hashVisualPattern elems = Ret h) ∨ hashVisualPattern elems = Throw "TypeError".
Proof. unfold hashVisualPattern. destruct (join_elems "|" elems); eauto. Qed.

(** ** The guards of [/verify-auth] *)

Lemma valid_request_spec session_id input :
  valid_request session_id input = true ↔
  ∃ sid elems, session_id = JStr sid ∧ sid ≠ "" ∧ input = JArr elems ∧ length elems = 3.
Proof.
  unfold valid_request. split.
  - intros H. repeat (apply andb_prop in H as [H ?]).
    destruct session_id as [| | | |sid| | |]; try discriminate.
    destruct input as [| | | | |elems| |]; try discriminate.
    exists sid, elems. repeat split; auto.
    + intros ->. discriminate.
    + simpl in *. apply Z.eqb_eq in H0. lia.
  - intros (sid & elems & -> & Hsid & -> & Hlen). simpl.
    apply String.eqb_neq in Hsid. rewrite Hsid, Hlen. reflexivity.
Qed.

Lemma verify_auth_rejects session_id input now iso :
  valid_request session_id input = false →
  ∃ message, ∀ sessions : table,
    verify_auth sessions session_id input now iso = (sessions, bad_request message).
Proof.
  unfold valid_request, verify_auth. intros H.
  destruct (truthy session_id); simpl in *; [|eauto].
  destruct (String.eqb (typeof session_id) "string"); simpl in *; [|eauto].
  destruct (truthy input); simpl in *; [|eauto].
  destruct (isArray input); simpl in *; [|eauto].
  rewrite H. simpl. eauto.
Qed.

Lemma verify_auth_invalid sessions session_id input now iso :
  valid_request session_id input = false →
  ∃ message, verify_auth sessions session_id input now iso = (sessions, bad_request message).
Proof. intros H. destruct (verify_auth_rejects _ _ now iso H) as [msg Hm]. eauto. Qed.

(** What the handler does once the guards are passed, branch by branch. *)
Section verify_branches.
Context (sessions : table) (sid : string) (elems : list jsval) (now : Z) (iso : string).
Hypothesis Hsid : sid ≠ "".
Hypothesis Hlen : length elems = 3.

Local Abbreviation call := (verify_auth sessions (JStr sid) (JArr elems) now iso).

Lemma verify_auth_guards :
  call =
  match sessions !! sid with
  | None => (sessions, INVALID_SESSION)
  | Some session =>
      if used session then (delete sid sessions, SESSION_USED)
      else if (now >? expiresAt session)%Z then (delete sid sessions, SESSION_EXPIRED)
      else if (attempts session >=? maxAttempts session)%Z then
        (delete sid sessions, MAX_ATTEMPTS)
      else
        match hashVisualPattern elems with
        | Ret inputHash =>
            if strict_eq (JStr inputHash) (secretHash session) then
              (delete sid sessions, pass (userId session) iso)
            else if (attempts session + 1 >=? maxAttempts session)%Z then
              (delete sid sessions, MAX_ATTEMPTS)
            else
              (<[sid := set_attempts (attempts session + 1) session]> sessions,
               mismatch (maxAttempts session - (attempts session + 1)))
        | _ =>
            (<[sid := set_attempts (attempts session + 1) session]> sessions,
             INTERNAL_ERROR)
        end
  end.
Proof.
  unfold verify_auth. simpl.
  apply String.eqb_neq in Hsid. rewrite Hsid, Hlen. simpl.
  destruct (sessions !! sid) as [s|]; [|done].
  destruct (used s); [done|].
  destruct (now >? expiresAt s)%Z; [done|].
  destruct (attempts s >=? maxAttempts s)%Z; [done|].
  destruct (hashVisualPattern elems) as [h| |]; [|done..].
  destruct (strict_eq _ _).
  - by rewrite !delete_insert_eq.
  - destruct (_ >=? _)%Z; [|done]. by rewrite delete_insert_eq.
Qed.

Lemma verify_unknown : sessions !! sid = None → call = (sessions, INVALID_SESSION).
Proof. intros H. by rewrite verify_auth_guards, H. Qed.

Lemma verify_expired s :
  sessions !! sid = Some s → used s = false → (expiresAt s < now)%Z →
  call = (delete sid sessions, SESSION_EXPIRED).
Proof.
  intros H Hu Hexp. rewrite verify_auth_guards, H, Hu.
  by replace (now >? expiresAt s)%Z with true by lia.
Qed.

Lemma verify_mismatch s :
  sessions !! sid = Some s → used s = false → (now ≤ expiresAt s)%Z →
  (attempts s + 1 < maxAttempts s)%Z → wrong s elems →
  call = (<[sid := set_attempts (attempts s + 1) s]> sessions,
          mismatch (maxAttempts s - (attempts s + 1))).
Proof.
  intros H Hu Hexp Ha (h & Hh & Hw). rewrite verify_auth_guards, H, Hu, Hh, Hw.
  replace (now >? expiresAt s)%Z with false by lia.
  replace (attempts s >=? maxAttempts s)%Z with false by lia.
  by replace (attempts s + 1 >=? maxAttempts s)%Z with false by lia.
Qed.

Lemma verify_last_mismatch s :
  sessions !! sid = Some s → used s = false → (now ≤ expiresAt s)%Z →
  (maxAttempts s ≤ attempts s + 1)%Z → wrong s elems →
  call = (delete sid sessions, MAX_ATTEMPTS).
Proof.
  intros H Hu Hexp Ha (h & Hh & Hw). rewrite verify_auth_guards, H, Hu, Hh, Hw.
  replace (now >? expiresAt s)%Z with false by lia.
  replace (attempts s + 1 >=? maxAttempts s)%Z with true by lia.
  by destruct (_ >=? _)%Z.
Qed.

(** The hashing throws: the attempt is counted and the session stays. *)
Lemma verify_crash s :
  sessions !! sid = Some s → used s = false → (now ≤ expiresAt s)%Z →
  (attempts s < maxAttempts s)%Z → join_elems "|" elems = None →
  call = (<[sid := set_attempts (attempts s + 1) s]> sessions, INTERNAL_ERROR).
Proof.
  intros H Hu Hexp Ha Hj. apply hashVisualPattern_throws in Hj.
  rewrite verify_auth_guards, H, Hu, Hj.
  replace (now >? expiresAt s)%Z with false by lia.
  by replace (attempts s >=? maxAttempts s)%Z with false by lia.
Qed.

(** A session found at the cap is gone, whatever the branch. *)
Lemma verify_cap_deletes s :
  sessions !! sid = Some s → (maxAttempts s ≤ attempts s)%Z →
  call.1 = delete sid sessions.
Proof.
  intros H Ha. rewrite verify_auth_guards, H.
  replace (attempts s >=? maxAttempts s)%Z with true by lia.
  by repeat case_match.
Qed.

(** So is a session brought to the cap by a candidate that is hashed. *)
Lemma verify_last_deletes s h :
  sessions !! sid = Some s → (maxAttempts s ≤ attempts s + 1)%Z →
  hashVisualPattern elems = Ret h →
  call.1 = delete sid sessions.
Proof.
  intros H Ha Hh. rewrite verify_auth_guards, H, Hh.
  replace (attempts s + 1 >=? maxAttempts s)%Z with true by lia.
  by repeat case_match.
Qed.

(** The table after the call: untouched, without [sid], or with the
    attempt counted. *)
Lemma verify_table :
  call.1 = sessions ∨ call.1 = delete sid sessions
  ∨ ∃ s, sessions !! sid = Some s
         ∧ call.1 = <[sid := set_attempts (attempts s + 1) s]> sessions.
Proof.
  rewrite verify_auth_guards. destruct (sessions !! sid) as [s|] eqn:Hs; [|by left].
  repeat case_match; simpl; eauto.
Qed.

Lemma verify_pass_inv :
  field "result" call.2 = JStr "PASS" →
  ∃ s, sessions !! sid = Some s ∧ call = (delete sid sessions, pass (userId s) iso).
Proof.
  rewrite verify_auth_guards. destruct (sessions !! sid) as [s|] eqn:Hs; [|done].
  repeat case_match; simpl; try done. eauto.
Qed.
End verify_branches.

(** ** [/start-auth] *)

Lemma start_auth_success sessions uid uuid now draws grid rest :
  uid ≠ "" →
  USER_DATABASE_get uid ≠ Missing →
  generateShuffledGrid DEMO_SECRET draws = Ret (grid, rest) →
  start_auth sessions (JStr uid) uuid now draws
  = Ret ((<[uuid := new_session uuid uid grid now]> sessions, challenge uuid grid), rest).
Proof.
  intros Huid Hdb Hgrid.
  unfold start_auth, try_catch, mbind, Rand_bind. simpl.
  apply String.eqb_neq in Huid. rewrite Huid. simpl.
  unfold new_session, challenge.
  destruct (USER_DATABASE_get uid) eqn:Hu; [| |done]; by rewrite Hgrid.
Qed.

Lemma start_auth_inv sessions user_id uuid now draws sessions' resp rest :
  start_auth sessions user_id uuid now draws = Ret ((sessions', resp), rest) →
  (sessions' = sessions ∧ status resp ≠ 200)
  ∨ ∃ uid grid,
      user_id = JStr uid ∧ uid ≠ "" ∧ USER_DATABASE_get uid ≠ Missing
      ∧ generateShuffledGrid DEMO_SECRET draws = Ret (grid, rest)
      ∧ sessions' = <[uuid := new_session uuid uid grid now]> sessions
      ∧ resp = challenge uuid grid.
Proof.
  unfold start_auth, try_catch, mbind, Rand_bind. intros H.
  destruct (negb (truthy user_id) || negb (String.eqb (typeof user_id) "string")) eqn:Hg.
  { simpl in H. inversion H; subst. left. by split. }
  apply orb_false_elim in Hg as [Ht Hs].
  destruct user_id as [| | | |uid| | |]; try discriminate. simpl in *.
  assert (uid ≠ "") as Huid.
  { intros ->. discriminate. }
  destruct (USER_DATABASE_get uid) eqn:Hu.
  - destruct (generateShuffledGrid DEMO_SECRET draws) as [[grid rest']| |] eqn:Hgrid;
      simpl in H; [|inversion H; subst; left; by split|done].
    inversion H; subst. right. exists uid, grid.
    unfold new_session, challenge. rewrite Hu. by repeat split.
  - destruct (generateShuffledGrid DEMO_SECRET draws) as [[grid rest']| |] eqn:Hgrid;
      simpl in H; [|inversion H; subst; left; by split|done].
    inversion H; subst. right. exists uid, grid.
    unfold new_session, challenge. rewrite Hu. by repeat split.
  - simpl in H. inversion H; subst. left. by split.
Qed.

(** A member inherited from [Object.prototype] passes the look-up as well:
    the session it gets has no secret hash, so no pattern matches it. *)
Example inherited_member_gets_a_session :
  ∃ grid rest,
    start_auth ∅ (JStr "constructor") demo_uuid 1000 demo_draws
    = Ret ((<[demo_uuid := new_session demo_uuid "constructor" grid 1000]> ∅,
            challenge demo_uuid grid), rest)
    ∧ secretHash (new_session demo_uuid "constructor" grid 1000) = JUndefined.
Proof.
  destruct (generateShuffledGrid DEMO_SECRET demo_draws) as [[grid rest]| |] eqn:Hgen;
    [|by vm_compute in Hgen..].
  exists grid, rest. split; [by apply start_auth_success|reflexivity].
Qed.

(** ** The invariant of the session table *)

Lemma new_session_ok uuid uid grid now : session_ok (new_session uuid uid grid now).
Proof. unfold session_ok, new_session. simpl. repeat split; lia. Qed.

Lemma table_ok_delete sessions sid : table_ok sessions → table_ok (delete sid sessions).
Proof. apply map_Forall_delete. Qed.

Lemma step_table_ok sessions ev : table_ok sessions → table_ok (step sessions ev).
Proof.
  intros Hok. destruct ev as [user_id uuid now draws|session_id input now iso|now]; simpl.
  - destruct (start_auth _ _ _ _ _) as [[[sessions' resp] rest]| |] eqn:H; [|done..].
    apply start_auth_inv in H as [[-> _]|(uid & grid & _ & _ & _ & _ & -> & _)]; [done|].
    simpl. apply map_Forall_insert_2; [apply new_session_ok|done].
  - destruct (valid_request session_id input) eqn:Hv.
    + apply valid_request_spec in Hv as (sid & elems & -> & Hsid & -> & Hlen).
      rewrite verify_auth_guards by done.
      destruct (sessions !! sid) as [s|] eqn:Hs; [|done].
      destruct (Hok _ _ Hs) as (Hu & Ha & Hm & He).
      repeat (case_match; simpl; try by apply table_ok_delete).
      all: apply map_Forall_insert_2; [|done].
      all: unfold session_ok; simpl in *; repeat split; try done; lia.
    + by destruct (verify_auth_invalid sessions _ _ now iso Hv) as [msg ->].
  - unfold cleanupExpiredSessions. intros sid s [Hs _]%map_lookup_filter_Some. eauto.
Qed.

Lemma reachable_table_ok sessions : reachable sessions → table_ok sessions.
Proof.
  induction 1 as [|sessions ev _ IH]; [apply map_Forall_empty|by apply step_table_ok].
Qed.

Lemma reachable_run sessions evs : reachable sessions → reachable (run sessions evs).
Proof.
  revert sessions. induction evs as [|ev evs IH]; intros sessions H; [done|].
  simpl. apply IH. by constructor.
Qed.

Lemma field_result_fail code error message :
  field "result" (fail code error message) = JStr "FAIL".
Proof. reflexivity. Qed.

Lemma field_error_fail code error message :
  field "error" (fail code error message) = JStr error.
Proof. reflexivity. Qed.

Lemma demo_table_lookup :
  demo_table !! demo_uuid
  = Some (new_session demo_uuid "U123"
            ["🎯"; "⭐"; "🔑"; "🔥"; "🎧"; "🔒"; "🍎"; "🚀"; "💎"] 1000).
Proof. vm_compute. reflexivity. Qed.

Lemma demo_table_reachable : reachable demo_table.
Proof. apply reachable_step, reachable_init. Qed.

(** ** Single use *)

Lemma step_absent sessions sid ev :
  sessions !! sid = None → ¬ mints sid ev → step sessions ev !! sid = None.
Proof.
  intros Hs Hev. destruct ev as [user_id uuid now draws|session_id input now iso|now]; simpl in *.
  - destruct (start_auth _ _ _ _ _) as [[[sessions' resp] rest]| |] eqn:H; [|done..].
    apply start_auth_inv in H as [[-> _]|(uid & grid & _ & _ & _ & _ & -> & _)]; [done|].
    simpl. by rewrite lookup_insert_ne.
  - destruct (valid_request session_id input) eqn:Hv.
    + apply valid_request_spec in Hv as (sid' & elems & -> & Hsid & -> & Hlen).
      destruct (verify_table sessions sid' elems now iso Hsid Hlen)
        as [->|[->|(s & Hs' & ->)]]; [done|by apply lookup_delete_None; right|].
      rewrite lookup_insert_ne; [done|congruence].
    + by destruct (verify_auth_invalid sessions _ _ now iso Hv) as [msg ->].
  - unfold cleanupExpiredSessions. apply map_lookup_filter_None. left. done.
Qed.

Lemma run_absent sessions sid evs :
  sessions !! sid = None → Forall (λ ev, ¬ mints sid ev) evs →
  run sessions evs !! sid = None.
Proof.
  intros Hs Hevs. revert sessions Hs.
  induction Hevs as [|ev evs Hev _ IH]; intros sessions Hs; [done|].
  simpl. apply IH. by apply step_absent.
Qed.

(** C1, as the code has it: once [verify] has answered [PASS] for a session
    id, the record is gone from the table, and as long as the random source
    does not hand out the same id again every later [verify] with that id
    leaves the table alone and never answers [PASS]: a well-formed request
    gets [FAIL] with [INVALID_SESSION], any other one [INVALID_REQUEST]. *)
Theorem pass_consumes_session sessions session_id input now iso evs input' now' iso' :
  field "result" (verify_auth sessions session_id input now iso).2 = JStr "PASS" →
  Forall (λ ev, ¬ mints (chars session_id) ev) evs →
  let later := run (verify_auth sessions session_id input now iso).1 evs in
  let again := verify_auth later session_id input' now' iso' in
  again.1 = later
  ∧ field "result" again.2 ≠ JStr "PASS"
  ∧ (valid_request session_id input' = true → again.2 = INVALID_SESSION)
  ∧ (valid_request session_id input' = false →
     status again.2 = 400 ∧ field "error" again.2 = JStr "INVALID_REQUEST").
Proof.
  intros Hpass Hevs later again.
  destruct (valid_request session_id input) eqn:Hv; cycle 1.
  { by destruct (verify_auth_invalid sessions _ _ now iso Hv) as [msg Hm]; rewrite Hm in Hpass. }
  apply valid_request_spec in Hv as (sid & elems & -> & Hsid & -> & Hlen).
  apply verify_pass_inv in Hpass as (s & Hs & Hcall); [|done..].
  assert (later !! sid = None) as Hgone.
  { subst later. apply run_absent; [|done]. rewrite Hcall. apply lookup_delete_eq. }
  destruct (valid_request (JStr sid) input') eqn:Hv'.
  - apply valid_request_spec in Hv' as (? & elems' & [= <-] & _ & -> & Hlen').
    subst again. rewrite verify_unknown by done. by repeat split.
  - destruct (verify_auth_invalid later _ _ now' iso' Hv') as [msg Hm].
    subst again. rewrite Hm. by repeat split.
Qed.

Lemma pass_consumes_session_witness :
  let evs := [StartAuth (JStr "U123") "another-id" 4000 demo_draws; Cleanup 5000] in
  let later := run (verify_auth demo_table (JStr demo_uuid) demo_answer 2000 "t1").1 evs in
  let again := verify_auth later (JStr demo_uuid) demo_answer 6000 "t2" in
  field "result" (verify_auth demo_table (JStr demo_uuid) demo_answer 2000 "t1").2 = JStr "PASS"
  ∧ Forall (λ ev, ¬ mints demo_uuid ev) evs
  ∧ again.1 = later
  ∧ field "result" again.2 ≠ JStr "PASS"
  ∧ (valid_request (JStr demo_uuid) demo_answer = true → again.2 = INVALID_SESSION)
  ∧ (valid_request (JStr demo_uuid) demo_answer = false →
     status again.2 = 400 ∧ field "error" again.2 = JStr "INVALID_REQUEST").
Proof.
  intros evs later again.
  assert (field "result" (verify_auth demo_table (JStr demo_uuid) demo_answer 2000 "t1").2
          = JStr "PASS") as Hpass by (vm_compute; reflexivity).
  assert (Forall (λ ev, ¬ mints demo_uuid ev) evs) as Hevs.
  { repeat constructor; simpl; [discriminate|tauto]. }
  split; [exact Hpass|]. split; [exact Hevs|].
  exact (pass_consumes_session demo_table (JStr demo_uuid) demo_answer 2000 "t1" evs
           demo_answer 6000 "t2" Hpass Hevs).
Defined.

(** C1 as stated fails: the replay of a successful call is answered
    [INVALID_SESSION], not [SESSION_USED]. *)
Lemma replay_is_not_session_used :
  let first := verify_auth demo_table (JStr demo_uuid) demo_answer 2000 "t1" in
  let replay := verify_auth first.1 (JStr demo_uuid) demo_answer 3000 "t2" in
  field "result" first.2 = JStr "PASS"
  ∧ field "result" replay.2 = JStr "FAIL"
  ∧ field "error" replay.2 = JStr "INVALID_SESSION"
  ∧ field "error" replay.2 ≠ JStr "SESSION_USED".
Proof.
  assert (field "error" (verify_auth
            (verify_auth demo_table (JStr demo_uuid) demo_answer 2000 "t1").1
            (JStr demo_uuid) demo_answer 3000 "t2").2 = JStr "INVALID_SESSION") as H
    by (vm_compute; reflexivity).
  cbv zeta. rewrite H. repeat split; [vm_compute; reflexivity..|discriminate].
Qed.

(** ** The attempt budget *)

(** C2: on a fresh session that has not expired, three wrong 3-element
    candidates in a row (each one hashed and found different from the
    secret) are answered [FAIL] with 2 attempts remaining, [FAIL] with 1
    remaining, then [MAX_ATTEMPTS], which removes the session; a fourth call
    with the same id, whatever its candidate, is answered
    [INVALID_SESSION]. *)
Theorem attempt_budget sessions sid s e1 e2 e3 e4 t1 t2 t3 t4 i1 i2 i3 i4 :
  sid ≠ "" → sessions !! sid = Some s → fresh s →
  length e1 = 3 → length e2 = 3 → length e3 = 3 → length e4 = 3 →
  wrong s e1 → wrong s e2 → wrong s e3 →
  (t1 ≤ expiresAt s)%Z → (t2 ≤ expiresAt s)%Z → (t3 ≤ expiresAt s)%Z →
  let s1 := <[sid := set_attempts 1 s]> sessions in
  let s2 := <[sid := set_attempts 2 s]> sessions in
  let s3 := delete sid sessions in
  verify_auth sessions (JStr sid) (JArr e1) t1 i1 = (s1, mismatch 2)
  ∧ verify_auth s1 (JStr sid) (JArr e2) t2 i2 = (s2, mismatch 1)
  ∧ verify_auth s2 (JStr sid) (JArr e3) t3 i3 = (s3, MAX_ATTEMPTS)
  ∧ verify_auth s3 (JStr sid) (JArr e4) t4 i4 = (s3, INVALID_SESSION).
Proof.
  intros Hsid Hs (Hu & Ha & Hm) L1 L2 L3 L4 W1 W2 W3 T1 T2 T3 s1 s2 s3.
  repeat split.
  - rewrite (verify_mismatch _ _ _ _ _ Hsid L1 s) by (done || lia).
    by rewrite Ha, Hm.
  - subst s1 s2.
    rewrite (verify_mismatch _ _ _ _ _ Hsid L2 (set_attempts 1 s));
      [|by rewrite ?lookup_insert_eq|done|done|simpl; lia|done].
    simpl. by rewrite insert_insert_eq, Hm.
  - subst s2 s3.
    rewrite (verify_last_mismatch _ _ _ _ _ Hsid L3 (set_attempts 2 s));
      [|by rewrite ?lookup_insert_eq|done|done|simpl; lia|done].
    by rewrite delete_insert_eq.
  - subst s3. rewrite verify_unknown; [done..|]. apply lookup_delete_eq.
Qed.

Lemma attempt_budget_witness :
  let s := new_session demo_uuid "U123"
             ["🎯"; "⭐"; "🔑"; "🔥"; "🎧"; "🔒"; "🍎"; "🚀"; "💎"] 1000 in
  let guess := demo_guess in
  let s1 := <[demo_uuid := set_attempts 1 s]> demo_table in
  let s2 := <[demo_uuid := set_attempts 2 s]> demo_table in
  let s3 := delete demo_uuid demo_table in
  (demo_uuid ≠ "" ∧ demo_table !! demo_uuid = Some s ∧ fresh s ∧ length guess = 3
   ∧ wrong s guess ∧ (2000 ≤ expiresAt s)%Z)
  ∧ verify_auth demo_table (JStr demo_uuid) (JArr guess) 2000 "t1" = (s1, mismatch 2)
  ∧ verify_auth s1 (JStr demo_uuid) (JArr guess) 2000 "t2" = (s2, mismatch 1)
  ∧ verify_auth s2 (JStr demo_uuid) (JArr guess) 2000 "t3" = (s3, MAX_ATTEMPTS)
  ∧ verify_auth s3 (JStr demo_uuid) (JArr guess) 2000 "t4" = (s3, INVALID_SESSION).
Proof.
  intros s guess s1 s2 s3.
  assert (demo_uuid ≠ "") as Hsid by discriminate.
  assert (fresh s) as Hfresh by (by repeat split).
  assert (wrong s guess) as Hwrong.
  { eexists. split; [apply hashVisualPattern_strings|vm_compute; reflexivity]. }
  assert (2000 ≤ expiresAt s)%Z as Htime by (simpl; unfold SESSION_TIMEOUT_MS; lia).
  split; [by repeat split; try apply demo_table_lookup|].
  exact (attempt_budget demo_table demo_uuid s guess guess guess guess
           2000 2000 2000 2000 "t1" "t2" "t3" "t4"
           Hsid demo_table_lookup Hfresh eq_refl eq_refl eq_refl eq_refl
           Hwrong Hwrong Hwrong Htime Htime Htime).
Defined.

(** The cap is reached: three candidates whose hashing throws leave the
    session of the demo in the table with 3 attempts counted. *)
Example session_at_the_cap :
  let crash := VerifyAuth (JStr demo_uuid) (JArr demo_crash) 2000 "t" in
  let sessions := run demo_table [crash; crash; crash] in
  reachable sessions
  ∧ ∃ s, sessions !! demo_uuid = Some s ∧ attempts s = 3%Z ∧ maxAttempts s = 3%Z.
Proof.
  split; [apply reachable_run, demo_table_reachable|].
  eexists. split; [vm_compute; reflexivity|]. by split.
Qed.

(** C6: no table the server can reach holds a session whose attempts exceed
    its budget of 3; and in any table, a well-formed [verify] that finds the
    session at the cap removes it and does not answer [PASS], whatever the
    candidate is (the cap is checked before the candidate is looked at); so
    does one that brings the session to the cap with a candidate that is
    hashed: the session is gone, matched or not. *)
Theorem attempts_capped sessions :
  reachable sessions →
  (∀ sid s, sessions !! sid = Some s →
            (attempts s ≤ maxAttempts s)%Z ∧ maxAttempts s = 3%Z)
  ∧ (∀ (tbl : table) sid s elems now iso,
       sid ≠ "" → length elems = 3 → tbl !! sid = Some s →
       (maxAttempts s ≤ attempts s)%Z →
       (verify_auth tbl (JStr sid) (JArr elems) now iso).1 = delete sid tbl
       ∧ field "result" (verify_auth tbl (JStr sid) (JArr elems) now iso).2 = JStr "FAIL")
  ∧ (∀ (tbl : table) sid s elems h now iso,
       sid ≠ "" → length elems = 3 → tbl !! sid = Some s →
       (maxAttempts s ≤ attempts s + 1)%Z → hashVisualPattern elems = Ret h →
       (verify_auth tbl (JStr sid) (JArr elems) now iso).1 = delete sid tbl).
Proof.
  intros Hr. split; [|split].
  - intros sid s Hs. destruct (reachable_table_ok _ Hr _ _ Hs) as (_ & ? & ? & _).
    split; [lia|done].
  - intros tbl sid s elems now iso Hsid Hlen Hs Hcap.
    split; [by eapply verify_cap_deletes|].
    rewrite verify_auth_guards, Hs by done.
    replace (attempts s >=? maxAttempts s)%Z with true by lia.
    by repeat case_match.
  - intros tbl sid s elems h now iso Hsid Hlen Hs Hcap Hh.
    by eapply verify_last_deletes.
Qed.

Lemma attempts_capped_witness :
  reachable demo_table
  ∧ (∀ sid s, demo_table !! sid = Some s →
              (attempts s ≤ maxAttempts s)%Z ∧ maxAttempts s = 3%Z)
  ∧ (∀ (tbl : table) sid s elems now iso,
       sid ≠ "" → length elems = 3 → tbl !! sid = Some s →
       (maxAttempts s ≤ attempts s)%Z →
       (verify_auth tbl (JStr sid) (JArr elems) now iso).1 = delete sid tbl
       ∧ field "result" (verify_auth tbl (JStr sid) (JArr elems) now iso).2 = JStr "FAIL")
  ∧ (∀ (tbl : table) sid s elems h now iso,
       sid ≠ "" → length elems = 3 → tbl !! sid = Some s →
       (maxAttempts s ≤ attempts s + 1)%Z → hashVisualPattern elems = Ret h →
       (verify_auth tbl (JStr sid) (JArr elems) now iso).1 = delete sid tbl).
Proof.
  split; [apply demo_table_reachable|].
  exact (attempts_capped demo_table demo_table_reachable).
Defined.

(** C10: every session of a reachable table has [used = false], and no
    [verify] on a reachable table is answered [SESSION_USED]. *)
Theorem session_used_unreachable sessions :
  reachable sessions →
  (∀ sid s, sessions !! sid = Some s → used s = false)
  ∧ (∀ session_id input now iso,
       field "error" (verify_auth sessions session_id input now iso).2
       ≠ JStr "SESSION_USED").
Proof.
  intros Hr. pose proof (reachable_table_ok _ Hr) as Hok. split.
  - intros sid s Hs. by destruct (Hok _ _ Hs).
  - intros session_id input now iso.
    destruct (valid_request session_id input) eqn:Hv.
    + apply valid_request_spec in Hv as (sid & elems & -> & Hsid & -> & Hlen).
      rewrite verify_auth_guards by done.
      destruct (sessions !! sid) as [s|] eqn:Hs; [|done].
      destruct (Hok _ _ Hs) as (-> & _).
      by repeat case_match.
    + by destruct (verify_auth_invalid sessions _ _ now iso Hv) as [msg ->].
Qed.

Lemma session_used_unreachable_witness :
  reachable demo_table
  ∧ (∀ sid s, demo_table !! sid = Some s → used s = false)
  ∧ (∀ session_id input now iso,
       field "error" (verify_auth demo_table session_id input now iso).2
       ≠ JStr "SESSION_USED").
Proof.
  split; [apply demo_table_reachable|].
  exact (session_used_unreachable demo_table demo_table_reachable).
Defined.

(** ** Expiry *)

Lemma cleanup_lookup_expired sessions sid s now :
  sessions !! sid = Some s → (expiresAt s < now)%Z →
  cleanupExpiredSessions now sessions !! sid = None.
Proof.
  intros Hs He. unfold cleanupExpiredSessions.
  apply map_lookup_filter_None. right. intros s' Hs' Hkeep. simpl in *.
  assert (s' = s) as -> by congruence. lia.
Qed.

(** C3, as the code has it: while an unused session (every session of a
    reachable table is one) is still in the table and its [expiresAt] is
    strictly before the clock reading, a well-formed [verify] with its id
    removes it and is answered [SESSION_EXPIRED], however many attempts
    remain; once the reaper has removed the entry the same call is answered
    [INVALID_SESSION] and changes nothing. *)
Theorem expired_session_rejected sessions sid s elems now iso :
  sid ≠ "" → length elems = 3 →
  sessions !! sid = Some s → used s = false → (expiresAt s < now)%Z →
  verify_auth sessions (JStr sid) (JArr elems) now iso
  = (delete sid sessions, SESSION_EXPIRED)
  ∧ ∀ swept, (expiresAt s < swept)%Z →
      verify_auth (cleanupExpiredSessions swept sessions) (JStr sid) (JArr elems) now iso
      = (cleanupExpiredSessions swept sessions, INVALID_SESSION).
Proof.
  intros Hsid Hlen Hs Hu He. split.
  - by eapply verify_expired.
  - intros swept Hswept. apply verify_unknown; [done..|].
    by eapply cleanup_lookup_expired.
Qed.

Lemma expired_session_rejected_witness :
  let s := new_session demo_uuid "U123"
             ["🎯"; "⭐"; "🔑"; "🔥"; "🎧"; "🔒"; "🍎"; "🚀"; "💎"] 1000 in
  let elems := JStr <$> DEMO_SECRET in
  (demo_uuid ≠ "" ∧ length elems = 3 ∧ demo_table !! demo_uuid = Some s
   ∧ used s = false ∧ (expiresAt s < 61001)%Z)
  ∧ verify_auth demo_table (JStr demo_uuid) (JArr elems) 61001 "t"
    = (delete demo_uuid demo_table, SESSION_EXPIRED)
  ∧ ∀ swept, (expiresAt s < swept)%Z →
      verify_auth (cleanupExpiredSessions swept demo_table) (JStr demo_uuid)
        (JArr elems) 61001 "t"
      = (cleanupExpiredSessions swept demo_table, INVALID_SESSION).
Proof.
  intros s elems.
  assert (demo_uuid ≠ "") as Hsid by discriminate.
  assert (expiresAt s < 61001)%Z as He by (simpl; unfold SESSION_TIMEOUT_MS; lia).
  split; [by repeat split; try apply demo_table_lookup|].
  exact (expired_session_rejected demo_table demo_uuid s elems 61001 "t"
           Hsid eq_refl demo_table_lookup eq_refl He).
Defined.

(** C3 as stated fails where the reaper has already removed the entry: the
    session of the demo expires at 61000, the sweep runs at 65000, and the
    [verify] at 70000 is answered [INVALID_SESSION], not [SESSION_EXPIRED]. *)
Lemma swept_session_is_invalid_session :
  let swept := cleanupExpiredSessions 65000 demo_table in
  let answer := verify_auth swept (JStr demo_uuid) demo_answer 70000 "t" in
  (∃ s, demo_table !! demo_uuid = Some s ∧ (expiresAt s < 70000)%Z)
  ∧ field "result" answer.2 = JStr "FAIL"
  ∧ field "error" answer.2 = JStr "INVALID_SESSION"
  ∧ field "error" answer.2 ≠ JStr "SESSION_EXPIRED".
Proof.
  assert (field "error"
            (verify_auth (cleanupExpiredSessions 65000 demo_table) (JStr demo_uuid)
               demo_answer 70000 "t").2 = JStr "INVALID_SESSION") as H
    by (vm_compute; reflexivity).
  cbv zeta. rewrite H. split; [|split; [vm_compute; reflexivity|split; [done|discriminate]]].
  eexists. split; [apply demo_table_lookup|]. simpl. unfold SESSION_TIMEOUT_MS. lia.
Qed.

(** ** The shape of the answers *)

Lemma post_verify_auth_body sessions body now iso :
  has_body body = true →
  post_verify_auth sessions body now iso
  = verify_auth sessions (read "session_id" body) (read "input" body) now iso.
Proof. by destruct body. Qed.

Lemma post_verify_auth_no_body sessions body now iso :
  has_body body = false →
  post_verify_auth sessions body now iso = (sessions, INTERNAL_ERROR).
Proof. by destruct body. Qed.

(** The answers of the handler once the fields are read. *)
Lemma verify_auth_shape sessions session_id input now iso :
  let answer := (verify_auth sessions session_id input now iso).2 in
  (valid_request session_id input = true ∧ status answer = 200
   ∧ field "result" answer = JStr "PASS" ∧ field "error" answer = JUndefined)
  ∨ (valid_request session_id input = true ∧ status answer = 401
     ∧ field "result" answer = JStr "FAIL" ∧ field "error" answer ∈ FAIL_KINDS)
  ∨ (valid_request session_id input = false ∧ status answer = 400
     ∧ field "result" answer = JUndefined
     ∧ field "error" answer = JStr "INVALID_REQUEST")
  ∨ (valid_request session_id input = true
     ∧ hashVisualPattern (elems_of input) = Throw "TypeError"
     ∧ status answer = 500
     ∧ field "result" answer = JUndefined
     ∧ field "error" answer = JStr "INTERNAL_ERROR").
Proof.
  intros answer. subst answer.
  destruct (valid_request session_id input) eqn:Hv.
  - apply valid_request_spec in Hv as (sid & elems & -> & Hsid & -> & Hlen).
    rewrite verify_auth_guards by done. simpl elems_of.
    destruct (sessions !! sid) as [s|] eqn:Hs; cycle 1.
    { right; left. repeat split. unfold FAIL_KINDS. simpl. set_solver. }
    destruct (used s); [right; left; repeat split; unfold FAIL_KINDS; simpl; set_solver|].
    destruct (now >? expiresAt s)%Z;
      [right; left; repeat split; unfold FAIL_KINDS; simpl; set_solver|].
    destruct (attempts s >=? maxAttempts s)%Z;
      [right; left; repeat split; unfold FAIL_KINDS; simpl; set_solver|].
    destruct (hashVisualPattern_outcome elems) as [[h ->]| ->].
    + destruct (strict_eq _ _); [by left|].
      destruct (_ >=? _)%Z;
        right; left; repeat split; unfold FAIL_KINDS; simpl; set_solver.
    + right; right; right. by repeat split.
  - destruct (verify_auth_invalid sessions _ _ now iso Hv) as [msg ->].
    right. right. left. by repeat split.
Qed.

(** C7, as the code has it: an answer of [/verify-auth] is either the [PASS]
    (status 200), or, for a request that passed the input checks, status 401
    with the verdict [FAIL] and one of the five documented error kinds, or,
    for a malformed request, status 400 with the error [INVALID_REQUEST] and
    no verdict field, or, for a request without a body or one whose
    candidate cannot be joined into a string, status 500 with the error
    [INTERNAL_ERROR] and no verdict field. *)
Theorem verify_answer_shape sessions body now iso :
  let answer := (post_verify_auth sessions body now iso).2 in
  let session_id := read "session_id" body in
  let input := read "input" body in
  (has_body body = true ∧ valid_request session_id input = true ∧ status answer = 200
   ∧ field "result" answer = JStr "PASS" ∧ field "error" answer = JUndefined)
  ∨ (has_body body = true ∧ valid_request session_id input = true ∧ status answer = 401
     ∧ field "result" answer = JStr "FAIL" ∧ field "error" answer ∈ FAIL_KINDS)
  ∨ (has_body body = true ∧ valid_request session_id input = false ∧ status answer = 400
     ∧ field "result" answer = JUndefined
     ∧ field "error" answer = JStr "INVALID_REQUEST")
  ∨ ((has_body body = false
      ∨ (valid_request session_id input = true
         ∧ hashVisualPattern (elems_of input) = Throw "TypeError"))
     ∧ status answer = 500
     ∧ field "result" answer = JUndefined
     ∧ field "error" answer = JStr "INTERNAL_ERROR").
Proof.
  intros answer session_id input. subst answer session_id input.
  destruct (has_body body) eqn:Hb.
  - rewrite post_verify_auth_body by done.
    destruct (verify_auth_shape sessions (read "session_id" body) (read "input" body)
                now iso) as [H|[H|[H|H]]]; cbv zeta in H.
    + by left.
    + by right; left.
    + by right; right; left.
    + right; right; right. destruct H as (? & ? & ?). split; [by right|done].
  - rewrite post_verify_auth_no_body by done.
    right; right; right. split; [by left|]. by repeat split.
Qed.

(** C7 as stated fails on malformed input: a candidate of two symbols is
    answered with status 400 and the error [INVALID_REQUEST], and the answer
    has no [result] field, so no verdict [FAIL]. *)
Lemma malformed_input_has_no_verdict :
  let answer := (verify_auth demo_table (JStr demo_uuid)
                   (JArr [JStr "🍎"; JStr "🎧"]) 2000 "t").2 in
  status answer = 400
  ∧ field "error" answer = JStr "INVALID_REQUEST"
  ∧ field "result" answer = JUndefined
  ∧ field "result" answer ≠ JStr "FAIL".
Proof. vm_compute. repeat split; discriminate. Qed.

(** Nor has the answer to a candidate that cannot be joined, which is not
    among the documented kinds either; the attempt is counted all the same. *)
Example crash_has_no_verdict :
  let call := verify_auth demo_table (JStr demo_uuid) (JArr demo_crash) 2000 "t" in
  status call.2 = 500
  ∧ field "error" call.2 = JStr "INTERNAL_ERROR"
  ∧ field "result" call.2 = JUndefined
  ∧ (attempts <$> call.1 !! demo_uuid) = Some 1%Z.
Proof. vm_compute. by repeat split. Qed.

(** ** Input validation comes first *)

(** C8: a [verify] whose candidate is not a sequence of exactly 3 elements
    is answered [INVALID_REQUEST] (status 400); the table is the one it was,
    no attempt is counted, and the answer is the same whatever the table
    holds, since it is given before the session is looked up. *)
Theorem wrong_length_rejected sessions session_id input now iso :
  (∀ elems, input = JArr elems → length elems ≠ 3) →
  let call := verify_auth sessions session_id input now iso in
  call.1 = sessions
  ∧ status call.2 = 400
  ∧ field "error" call.2 = JStr "INVALID_REQUEST"
  ∧ ∀ other : table, (verify_auth other session_id input now iso).2 = call.2.
Proof.
  intros Hlen call. subst call.
  assert (valid_request session_id input = false) as Hv.
  { destruct (valid_request session_id input) eqn:Hv; [|done].
    apply valid_request_spec in Hv as (sid & elems & _ & _ & -> & Hl).
    by destruct (Hlen elems). }
  destruct (verify_auth_rejects _ _ now iso Hv) as [msg Hm].
  rewrite Hm. repeat split.
  intros other. by rewrite Hm.
Qed.

Lemma wrong_length_rejected_witness :
  let input := JArr [JStr "🍎"; JStr "🎧"; JStr "🔥"; JStr "🚀"] in
  let call := verify_auth demo_table (JStr demo_uuid) input 2000 "t" in
  (∀ elems, input = JArr elems → length elems ≠ 3)
  ∧ call.1 = demo_table
  ∧ status call.2 = 400
  ∧ field "error" call.2 = JStr "INVALID_REQUEST"
  ∧ ∀ other : table, (verify_auth other (JStr demo_uuid) input 2000 "t").2 = call.2.
Proof.
  intros input call.
  assert (∀ elems, input = JArr elems → length elems ≠ 3) as Hlen.
  { intros elems [= <-]. simpl. lia. }
  split; [exact Hlen|].
  exact (wrong_length_rejected demo_table (JStr demo_uuid) input 2000 "t" Hlen).
Defined.

(** ** The random source and the shuffle *)

Lemma randomInt_cons n r rest : 0 < n → randomInt 0 n (r :: rest) = Ret (r mod n, rest).
Proof. intros Hn. unfold randomInt. rewrite decide_True by done. by rewrite Nat.sub_0_r. Qed.

Lemma randomInt_nil n : 0 < n → randomInt 0 n [] = Starved.
Proof. intros Hn. unfold randomInt. by rewrite decide_True. Qed.

Lemma randomInt_empty_range draws : randomInt 0 0 draws = Throw ERR_OUT_OF_RANGE.
Proof. reflexivity. Qed.

Lemma insert_Permutation (l : list string) j x y :
  l !! j = Some y → y :: <[j:=x]> l ≡ₚ x :: l.
Proof.
  revert j. induction l as [|z l IH]; intros [|j] Hj; simplify_eq/=.
  - apply Permutation_swap.
  - rewrite (Permutation_swap z y), (IH _ Hj). apply Permutation_swap.
Qed.

Lemma swap_Permutation (l : list string) i j :
  i < length l → j < length l → swap l i j ≡ₚ l.
Proof.
  unfold swap. intros Hi Hj.
  pose proof (list_lookup_lookup_total_lt l i Hi) as Hxi.
  pose proof (list_lookup_lookup_total_lt l j Hj) as Hxj.
  revert Hxi Hxj. generalize (l !!! i) (l !!! j). intros xi xj. clear Hi Hj.
  revert i j. induction l as [|z l IH]; intros [|i] [|j] Hxi Hxj; simplify_eq/=.
  - done.
  - by apply insert_Permutation.
  - by apply insert_Permutation.
  - f_equiv. by apply IH.
Qed.

Lemma swap_length (l : list string) i j : length (swap l i j) = length l.
Proof. unfold swap. by rewrite !length_insert. Qed.

(** The shuffle reads one draw per position, never throws, and hands back a
    rearrangement of the array. *)
Lemma shuffleFrom_spec i (l : list string) draws :
  i < length l ∨ i = 0 →
  if decide (i ≤ length draws) then
    ∃ l', shuffleFrom i l draws = Ret (l', drop i draws) ∧ l' ≡ₚ l
  else shuffleFrom i l draws = Starved.
Proof.
  revert l draws. induction i as [|i IH]; intros l draws Hi.
  { rewrite decide_True by lia. exists l. by rewrite drop_0. }
  assert (S i < length l) as Hlt by lia. clear Hi.
  change (shuffleFrom (S i) l draws)
    with (Rand_bind _ _ (λ j, shuffleFrom i (swap l (S i) j)) (randomInt 0 (S i + 1)) draws).
  unfold Rand_bind.
  destruct draws as [|r draws].
  { rewrite decide_False by (simpl; lia). by rewrite randomInt_nil by lia. }
  rewrite randomInt_cons by lia.
  assert (r mod (S i + 1) < S i + 1) as Hr by (apply Nat.mod_upper_bound; lia).
  specialize (IH (swap l (S i) (r mod (S i + 1))) draws).
  rewrite swap_length in IH. specialize (IH ltac:(lia)).
  simpl length. destruct (decide (i ≤ length draws)) as [Hd|Hd].
  - rewrite decide_True by lia. destruct IH as (l' & -> & Hp).
    exists l'. split; [done|]. rewrite Hp. apply swap_Permutation; lia.
  - by rewrite decide_False by lia.
Qed.

Lemma shuffleArray_spec (l : list string) draws :
  if decide (length l - 1 ≤ length draws) then
    ∃ l', shuffleArray l draws = Ret (l', drop (length l - 1) draws) ∧ l' ≡ₚ l
  else shuffleArray l draws = Starved.
Proof. apply shuffleFrom_spec. lia. Qed.

(** ** The grid loop *)

Lemma fillGrid_full fuel avail grid draws :
  9 ≤ length grid → fillGrid fuel avail grid draws = Ret (grid, draws).
Proof. intros H. destruct fuel; simpl; by rewrite decide_False by lia. Qed.

Lemma fillGrid_iter fuel avail grid draws :
  length grid < 9 →
  fillGrid (S fuel) avail grid draws
  = match randomInt 0 (length avail) draws with
    | Ret (randomIndex, rest) =>
        if bool_decide (avail !!! randomIndex ∈ grid)
        then fillGrid fuel avail grid rest
        else fillGrid fuel avail (grid ++ [avail !!! randomIndex]) rest
    | Throw e => Throw e
    | Starved => Starved
    end.
Proof.
  intros H. simpl. rewrite decide_True by done. unfold mbind, Rand_bind, includes.
  destruct (randomInt 0 (length avail) draws) as [[i rest]| |]; [|done..].
  by destruct (bool_decide _).
Qed.

Lemma fillGrid_empty_pool fuel grid draws :
  length grid < 9 → fillGrid (S fuel) [] grid draws = Throw ERR_OUT_OF_RANGE.
Proof. intros H. by rewrite fillGrid_iter. Qed.

Lemma avail_pos (avail : list string) : avail ≠ [] → 0 < length avail.
Proof. destruct avail; simpl; [done|lia]. Qed.

Lemma pick_in_avail (avail : list string) r :
  avail ≠ [] → avail !! (r mod length avail) = Some (avail !!! (r mod length avail)).
Proof.
  intros H%avail_pos. apply list_lookup_lookup_total_lt, Nat.mod_upper_bound. lia.
Qed.

Lemma fillGrid_ret_full fuel avail grid draws g rest :
  9 ≤ length grid →
  fillGrid fuel avail grid draws = Ret (g, rest) →
  ∃ new, g = grid ++ new ∧ NoDup new
         ∧ (∀ x, x ∈ new → x ∈ avail ∧ x ∉ grid)
         ∧ 9 ≤ length g ∧ (length grid ≤ 9 → length g = 9).
Proof.
  intros Hlen. rewrite fillGrid_full by done. intros [= <- <-].
  exists []. rewrite app_nil_r.
  split_and!; [done|constructor|by intros ? ?%elem_of_nil|done|lia].
Qed.

(** What the loop returns, when it returns: the grid it started from,
    followed by different symbols of the pool that were not in it, 9 symbols
    in all unless it started with more. *)
Lemma fillGrid_ret fuel avail : ∀ grid draws g rest,
  fillGrid fuel avail grid draws = Ret (g, rest) →
  ∃ new, g = grid ++ new ∧ NoDup new
         ∧ (∀ x, x ∈ new → x ∈ avail ∧ x ∉ grid)
         ∧ 9 ≤ length g ∧ (length grid ≤ 9 → length g = 9).
Proof.
  induction fuel as [|fuel IH]; intros grid draws g rest H.
  { destruct (decide (length grid < 9)) as [Hlt|Hge]; [|eapply fillGrid_ret_full; [lia|done]].
    simpl in H. by rewrite decide_True in H. }
  destruct (decide (length grid < 9)) as [Hlt|Hge]; [|eapply fillGrid_ret_full; [lia|done]].
  rewrite fillGrid_iter in H by done.
  destruct avail as [|a avail']; [done|]. set (avail := a :: avail') in *.
  destruct draws as [|r draws]; [by rewrite randomInt_nil in H by (simpl; lia)|].
  rewrite randomInt_cons in H by (simpl; lia).
  assert (avail !!! (r mod length avail) ∈ avail) as Hin.
  { apply list_elem_of_lookup_total_2, Nat.mod_upper_bound. simpl. lia. }
  revert H Hin. generalize (avail !!! (r mod length avail)). intros emoji H Hin.
  destruct (bool_decide (emoji ∈ grid)) eqn:Hinc.
  - by apply IH in H.
  - apply bool_decide_eq_false in Hinc.
    apply IH in H as (new & -> & Hnd & Hnew & H9 & Hlen).
    exists (emoji :: new). rewrite <-app_assoc. simpl. split; [done|].
    split.
    { apply NoDup_cons. split; [|done]. intros [_ Hx]%Hnew.
      apply Hx, elem_of_app. right. by apply list_elem_of_singleton. }
    split.
    { intros x [->|Hx]%elem_of_cons; [done|].
      destruct (Hnew x Hx) as [? Hx']. split; [done|].
      intros ?. apply Hx', elem_of_app. by left. }
    split; [by rewrite <-app_assoc in H9|].
    intros _. rewrite <-app_assoc in Hlen. apply Hlen. rewrite length_app. simpl. lia.
Qed.

(** More draws behind, or more fuel, do not change what the loop returns. *)
Lemma fillGrid_more fuel avail : ∀ grid draws g rest fuel' extra,
  fillGrid fuel avail grid draws = Ret (g, rest) → fuel ≤ fuel' →
  fillGrid fuel' avail grid (draws ++ extra) = Ret (g, rest ++ extra).
Proof.
  induction fuel as [|fuel IH]; intros grid draws g rest fuel' extra H Hfuel.
  { destruct (decide (length grid < 9)) as [Hlt|Hge].
    - simpl in H. by rewrite decide_True in H.
    - rewrite fillGrid_full in H by lia. injection H as <- <-.
      by rewrite fillGrid_full by lia. }
  destruct (decide (length grid < 9)) as [Hlt|Hge]; cycle 1.
  { rewrite fillGrid_full in H by lia. injection H as <- <-.
    by rewrite fillGrid_full by lia. }
  destruct fuel' as [|fuel']; [lia|].
  rewrite fillGrid_iter in H |- * by done.
  destruct avail as [|a avail']; [done|]. set (avail := a :: avail') in *.
  destruct draws as [|r draws]; [by rewrite randomInt_nil in H by (simpl; lia)|].
  rewrite randomInt_cons in H by (simpl; lia).
  rewrite <-app_comm_cons, randomInt_cons by (simpl; lia).
  destruct (bool_decide _); apply IH; (done || lia).
Qed.

(** The fuel only makes the recursion structural: any amount above the
    number of draws gives the same outcome, so [Starved] always means that
    the draws were used up. *)
Lemma fillGrid_fuel avail draws : ∀ fuel fuel' grid,
  length draws < fuel → length draws < fuel' →
  fillGrid fuel avail grid draws = fillGrid fuel' avail grid draws.
Proof.
  induction draws as [|r draws IH]; intros fuel fuel' grid Hf Hf'.
  - destruct (decide (length grid < 9)) as [Hlt|Hge];
      [|by rewrite !fillGrid_full by lia].
    destruct fuel as [|fuel]; [simpl in Hf; lia|].
    destruct fuel' as [|fuel']; [simpl in Hf'; lia|].
    rewrite !fillGrid_iter by done.
    destruct avail as [|a avail']; [done|]. by rewrite randomInt_nil by (simpl; lia).
  - destruct (decide (length grid < 9)) as [Hlt|Hge];
      [|by rewrite !fillGrid_full by lia].
    destruct fuel as [|fuel]; [simpl in Hf; lia|].
    destruct fuel' as [|fuel']; [simpl in Hf'; lia|].
    rewrite !fillGrid_iter by done.
    destruct avail as [|a avail']; [done|]. rewrite randomInt_cons by (simpl; lia).
    simpl in Hf, Hf'. destruct (bool_decide _); apply IH; lia.
Qed.

Lemma NoDup_length_le (l k : list string) :
  NoDup l → (∀ x, x ∈ l → x ∈ k) → length l ≤ length k.
Proof. intros Hl Hk. by apply submseteq_length, NoDup_submseteq. Qed.

Lemma picks_empty_pool draws : picks [] draws = [].
Proof. unfold picks. induction draws as [|r draws IH]; [done|]. by simpl. Qed.

Lemma picks_cons avail r draws :
  avail ≠ [] →
  picks avail (r :: draws) = avail !!! (r mod length avail) :: picks avail draws.
Proof. intros H. unfold picks. simpl. by rewrite pick_in_avail. Qed.

Lemma fresh_hits_seen avail grid r draws :
  avail ≠ [] → avail !!! (r mod length avail) ∈ grid →
  fresh_hits avail grid (r :: draws) = fresh_hits avail grid draws.
Proof.
  intros Ha Hin. unfold fresh_hits. rewrite picks_cons by done.
  rewrite filter_cons_False; [done|]. by intros H.
Qed.

Lemma fresh_hits_new avail grid r draws :
  avail ≠ [] →
  fresh_hits avail grid (r :: draws)
  ≤ S (fresh_hits avail (grid ++ [avail !!! (r mod length avail)]) draws).
Proof.
  intros Ha. unfold fresh_hits. rewrite picks_cons by done.
  generalize (avail !!! (r mod length avail)) (picks avail draws). intros emoji P.
  change (S (length ?l)) with (length (emoji :: l)).
  apply NoDup_length_le; [apply NoDup_remove_dups|].
  intros x [Hx HP]%elem_of_remove_dups%list_elem_of_filter.
  destruct (decide (x = emoji)) as [->|Hne]; [by left|]. right.
  apply elem_of_remove_dups, list_elem_of_filter.
  apply elem_of_cons in HP as [?|HP]; [done|]. split; [|done].
  intros [?|?%list_elem_of_singleton]%elem_of_app; done.
Qed.

(** Draws that select enough different new symbols make the loop return. *)
Lemma fillGrid_hits avail draws : ∀ fuel grid,
  length draws < fuel →
  9 - length grid ≤ fresh_hits avail grid draws →
  ∃ g rest, fillGrid fuel avail grid draws = Ret (g, rest).
Proof.
  induction draws as [|r draws IH]; intros fuel grid Hfuel Hhits.
  { unfold fresh_hits in Hhits. simpl in Hhits.
    rewrite fillGrid_full by (simpl in *; lia). eauto. }
  destruct (decide (length grid < 9)) as [Hlt|Hge];
    [|rewrite fillGrid_full by lia; eauto].
  destruct fuel as [|fuel]; [lia|]. simpl in Hfuel.
  destruct (decide (avail = [])) as [->|Ha].
  { unfold fresh_hits in Hhits. rewrite picks_empty_pool in Hhits. simpl in Hhits. lia. }
  rewrite fillGrid_iter by done. rewrite randomInt_cons by by apply avail_pos.
  destruct (bool_decide _) eqn:Hinc.
  - apply bool_decide_eq_true in Hinc. apply IH; [lia|].
    by rewrite <-(fresh_hits_seen avail grid r draws).
  - apply IH; [lia|]. pose proof (fresh_hits_new avail grid r draws Ha).
    rewrite length_app. simpl. lia.
Qed.

Lemma fillGrid_no_throw fuel avail : ∀ grid draws e,
  avail ≠ [] → fillGrid fuel avail grid draws ≠ Throw e.
Proof.
  induction fuel as [|fuel IH]; intros grid draws e Ha.
  { simpl. by destruct (decide _). }
  destruct (decide (length grid < 9)) as [Hlt|Hge];
    [|by rewrite fillGrid_full by lia].
  rewrite fillGrid_iter by done.
  destruct draws as [|r draws]; [by rewrite randomInt_nil by by apply avail_pos|].
  rewrite randomInt_cons by by apply avail_pos.
  destruct (bool_decide _); by apply IH.
Qed.

(** ** [generateShuffledGrid] *)

Lemma eligible_spec pool secret x : x ∈ eligible pool secret ↔ x ∈ pool ∧ x ∉ secret.
Proof.
  unfold eligible, includes. rewrite list_elem_of_filter, negb_True, bool_decide_spec.
  tauto.
Qed.

Lemma generate_unfold pool secret draws :
  generateShuffledGridFrom pool secret draws
  = match fillGrid (S (length draws)) (eligible pool secret) secret draws with
    | Ret (gridEmojis, rest) => shuffleArray gridEmojis rest
    | Throw e => Throw e
    | Starved => Starved
    end.
Proof.
  unfold generateShuffledGridFrom, mbind, Rand_bind, eligible.
  by destruct (fillGrid _ _ _ _) as [[g r]| |].
Qed.

(** Whatever grid is returned is a rearrangement of the secret pattern
    followed by different decoys from the pool. *)
Lemma generate_ret pool secret draws grid rest :
  generateShuffledGridFrom pool secret draws = Ret (grid, rest) →
  ∃ new, grid ≡ₚ secret ++ new ∧ NoDup new
         ∧ (∀ x, x ∈ new → x ∈ pool ∧ x ∉ secret)
         ∧ (length secret ≤ 9 → length grid = 9).
Proof.
  rewrite generate_unfold.
  destruct (fillGrid _ _ _ _) as [[g r]| |] eqn:Hfill; [|done..].
  apply fillGrid_ret in Hfill as (new & -> & Hnd & Hnew & _ & Hlen).
  intros Hsh. pose proof (shuffleArray_spec (secret ++ new) r) as Hspec.
  destruct (decide _); [|congruence].
  destruct Hspec as (l' & Heq & Hp). rewrite Heq in Hsh. injection Hsh as -> _.
  exists new. split_and!; [done|done| |].
  - intros x Hx. destruct (Hnew x Hx) as [Ha ?]. apply eligible_spec in Ha. tauto.
  - intros H. rewrite Hp. auto.
Qed.

Lemma generate_no_throw pool secret draws e :
  eligible pool secret ≠ [] → generateShuffledGridFrom pool secret draws ≠ Throw e.
Proof.
  intros Ha. rewrite generate_unfold.
  destruct (fillGrid _ _ _ _) as [[g r]| |] eqn:Hfill; [| |done].
  - pose proof (shuffleArray_spec g r) as Hspec.
    destruct (decide _); [destruct Hspec as (? & -> & _)|rewrite Hspec]; done.
  - by apply fillGrid_no_throw in Hfill.
Qed.

(** Draws that release the generator make it return. *)
Lemma generate_releases pool secret draws :
  length secret ≤ 9 → releases pool secret draws →
  ∃ grid rest, generateShuffledGridFrom pool secret draws = Ret (grid, rest)
               ∧ length grid = 9.
Proof.
  intros Hlen (d1 & d2 & -> & Hhits & Hd2).
  destruct (fillGrid_hits (eligible pool secret) d1 (S (length d1)) secret)
    as (g & r1 & Hfill); [lia|done|].
  pose proof (fillGrid_ret _ _ _ _ _ _ Hfill) as (new & Hg & _ & _ & _ & Hg9).
  specialize (Hg9 Hlen).
  apply (fillGrid_more _ _ _ _ _ _ (S (length (d1 ++ d2))) d2) in Hfill;
    [|rewrite length_app; lia].
  rewrite generate_unfold, Hfill.
  pose proof (shuffleArray_spec g (r1 ++ d2)) as Hspec.
  rewrite decide_True in Hspec by (rewrite length_app; lia).
  destruct Hspec as (grid & -> & Hp). exists grid, (drop (length g - 1) (r1 ++ d2)).
  split; [done|]. by rewrite Hp.
Qed.

Lemma eligible_demo :
  eligible EMOJI_POOL DEMO_SECRET = ["🚀"; "⭐"; "🔒"; "🔑"; "💎"; "🎯"; "🌟"; "⚡"; "🔐"].
Proof. vm_compute. reflexivity. Qed.

Lemma NoDup_DEMO_SECRET : NoDup DEMO_SECRET.
Proof. apply (bool_decide_unpack (NoDup DEMO_SECRET)). vm_compute. exact I. Qed.

Lemma filter_eq_absent (l : list string) x : x ∉ l → filter (λ y, y = x) l = [].
Proof.
  induction l as [|y l IH]; [done|]. intros [Hne Hx]%not_elem_of_cons.
  rewrite filter_cons_False by congruence. auto.
Qed.

Lemma count_NoDup (l : list string) x : NoDup l → x ∈ l → count x l = 1.
Proof.
  unfold count. induction 1 as [|y l Hy Hl IH]; [by intros ?%elem_of_nil|].
  intros [->|Hx]%elem_of_cons.
  - rewrite filter_cons_True by done. by rewrite filter_eq_absent.
  - rewrite filter_cons_False; [auto|]. by intros ->.
Qed.

Lemma demo_releases : releases EMOJI_POOL DEMO_SECRET demo_draws.
Proof.
  exists (take 7 demo_draws), (drop 7 demo_draws).
  split; [reflexivity|]. split; [vm_compute; lia|simpl; lia].
Qed.

(** ** Session creation *)

Lemma start_auth_registered sessions uid u uuid now draws :
  USER_DATABASE !! uid = Some u →
  match generateShuffledGrid DEMO_SECRET draws with
  | Ret (grid, rest) =>
      start_auth sessions (JStr uid) uuid now draws
      = Ret ((<[uuid := new_session uuid uid grid now]> sessions, challenge uuid grid), rest)
      ∧ new_session uuid uid grid now
        = mkSession uuid uid (JStr (user_secretHash u)) grid now (now + 60 * 1000) false 0 3
  | Throw _ => False
  | Starved => start_auth sessions (JStr uid) uuid now draws = Starved
  end.
Proof.
  intros Hu. pose proof (USER_DATABASE_lookup _ _ Hu) as [-> _].
  assert (USER_DATABASE_get "U123" = Own u) as Hget.
  { unfold USER_DATABASE_get. by rewrite Hu. }
  destruct (generateShuffledGrid DEMO_SECRET draws) as [[grid rest]|e|] eqn:Hgen.
  - split; [apply start_auth_success; [done|by rewrite Hget|done]|].
    unfold new_session. by rewrite Hget.
  - eapply generate_no_throw; [|exact Hgen]. by rewrite eligible_demo.
  - unfold start_auth, try_catch, mbind, Rand_bind. simpl. by rewrite Hget, Hgen.
Qed.

Lemma session_created_intro sessions uid u uuid now grid rest :
  session_created sessions uid u uuid now
    (Ret ((<[uuid := mkSession uuid uid (JStr (user_secretHash u)) grid now
                       (now + 60 * 1000) false 0 3]> sessions,
           challenge uuid grid), rest)).
Proof.
  eexists grid, rest, _. split_and!; [done|done| |].
  - intros other Hne. by rewrite lookup_insert_ne.
  - intros Hnew. by apply map_size_insert_None.
Qed.

(** C4: for a user of the registry, [/start-auth] puts exactly one new
    record in the session table, with [attempts = 0], [used = false],
    [createdAt = now] and [expiresAt = createdAt + 60 s], and answers with the
    session id, the grid and [expires_in = 60].  It does so as soon as the
    random source releases the grid generator, and it never answers anything
    else: with draws that do not release it, the handler is still running. *)
Theorem start_auth_creates_session sessions uid u uuid now draws :
  USER_DATABASE !! uid = Some u →
  let res := start_auth sessions (JStr uid) uuid now draws in
  (releases EMOJI_POOL DEMO_SECRET draws → session_created sessions uid u uuid now res)
  ∧ (res = Starved ∨ session_created sessions uid u uuid now res).
Proof.
  intros Hu res. subst res.
  pose proof (start_auth_registered sessions uid u uuid now draws Hu) as Hreg.
  split.
  - intros Hrel.
    destruct (generate_releases EMOJI_POOL DEMO_SECRET draws) as (grid & rest & Hgen & Hlen);
      [simpl; lia|done|].
    unfold generateShuffledGrid in Hreg. rewrite Hgen in Hreg.
    destruct Hreg as [-> ->]. apply session_created_intro.
  - destruct (generateShuffledGrid DEMO_SECRET draws) as [[grid rest]|e|]; [|done|by left].
    right. destruct Hreg as [-> ->]. apply session_created_intro.
Qed.

Lemma start_auth_creates_session_witness :
  let u := {| user_userId := "U123";
              user_secretHash :=
                "71d9d0d740e5d44281516dc085c9ad814e4ea9570dcdcfd01cbb1971862113c8" |} in
  let res := start_auth ∅ (JStr "U123") demo_uuid 1000 demo_draws in
  (USER_DATABASE !! "U123" = Some u ∧ releases EMOJI_POOL DEMO_SECRET demo_draws)
  ∧ (releases EMOJI_POOL DEMO_SECRET demo_draws → session_created ∅ "U123" u demo_uuid 1000 res)
  ∧ (res = Starved ∨ session_created ∅ "U123" u demo_uuid 1000 res).
Proof.
  intros u res.
  assert (USER_DATABASE !! "U123" = Some u) as Hu by (vm_compute; reflexivity).
  split; [split; [exact Hu|exact demo_releases]|].
  exact (start_auth_creates_session ∅ "U123" u demo_uuid 1000 demo_draws Hu).
Defined.

(** ** Grid contents *)

(** C5: for a user of the registry, the grid [/start-auth] answers with has
    exactly 9 symbols, no symbol twice, and every symbol of the user's secret
    pattern (the pattern whose digest the registry holds) exactly once; the
    answer is given whenever the random source releases the generator. *)
Theorem grid_contents sessions uid u uuid now draws :
  USER_DATABASE !! uid = Some u →
  Ret (user_secretHash u) = hashVisualPattern (JStr <$> DEMO_SECRET)
  ∧ (releases EMOJI_POOL DEMO_SECRET draws →
     ∃ res, start_auth sessions (JStr uid) uuid now draws = Ret res)
  ∧ ∀ sessions' answer rest,
      start_auth sessions (JStr uid) uuid now draws = Ret ((sessions', answer), rest) →
      ∃ grid, field "grid" answer = JArr (JStr <$> grid)
              ∧ length grid = 9
              ∧ NoDup grid
              ∧ ∀ symbol, symbol ∈ DEMO_SECRET → count symbol grid = 1.
Proof.
  intros Hu. pose proof (USER_DATABASE_lookup _ _ Hu) as [_ Hhash].
  pose proof (start_auth_registered sessions uid u uuid now draws Hu) as Hreg.
  split; [done|]. split.
  - intros Hrel.
    destruct (generate_releases EMOJI_POOL DEMO_SECRET draws) as (grid & rest & Hgen & Hlen);
      [simpl; lia|done|].
    unfold generateShuffledGrid in Hreg. rewrite Hgen in Hreg. destruct Hreg as [-> _]. eauto.
  - intros sessions' answer rest Hres.
    destruct (generateShuffledGrid DEMO_SECRET draws) as [[grid rest']|e|] eqn:Hgen;
      [|destruct Hreg|rewrite Hreg in Hres; discriminate Hres].
    destruct Hreg as [Hreg _]. rewrite Hreg in Hres. injection Hres as <- <- <-.
    apply generate_ret in Hgen as (new & Hp & Hnd & Hnew & Hlen).
    assert (NoDup grid) as Hgrid.
    { rewrite Hp. apply NoDup_app. split; [apply NoDup_DEMO_SECRET|].
      split; [|done]. intros x Hx Hx'. destruct (Hnew x Hx'). contradiction. }
    exists grid. split_and!; [done|apply Hlen; simpl; lia|done|].
    intros symbol Hsym. apply count_NoDup; [done|].
    rewrite Hp. apply elem_of_app. by left.
Qed.

Lemma grid_contents_witness :
  let u := {| user_userId := "U123";
              user_secretHash :=
                "71d9d0d740e5d44281516dc085c9ad814e4ea9570dcdcfd01cbb1971862113c8" |} in
  (USER_DATABASE !! "U123" = Some u ∧ releases EMOJI_POOL DEMO_SECRET demo_draws)
  ∧ Ret (user_secretHash u) = hashVisualPattern (JStr <$> DEMO_SECRET)
  ∧ (releases EMOJI_POOL DEMO_SECRET demo_draws →
     ∃ res, start_auth ∅ (JStr "U123") demo_uuid 1000 demo_draws = Ret res)
  ∧ ∀ sessions' answer rest,
      start_auth ∅ (JStr "U123") demo_uuid 1000 demo_draws = Ret ((sessions', answer), rest) →
      ∃ grid, field "grid" answer = JArr (JStr <$> grid)
              ∧ length grid = 9
              ∧ NoDup grid
              ∧ ∀ symbol, symbol ∈ DEMO_SECRET → count symbol grid = 1.
Proof.
  intros u.
  assert (USER_DATABASE !! "U123" = Some u) as Hu by (vm_compute; reflexivity).
  split; [split; [exact Hu|exact demo_releases]|].
  exact (grid_contents ∅ "U123" u demo_uuid 1000 demo_draws Hu).
Defined.

(** ** When the grid generator returns *)

Lemma generate_short_pool pool secret draws :
  length (remove_dups (eligible pool secret)) < 9 - length secret →
  generateShuffledGridFrom pool secret draws
  = if decide (eligible pool secret = []) then Throw ERR_OUT_OF_RANGE else Starved.
Proof.
  intros Hcap. destruct (decide _) as [Ha|Ha].
  - rewrite generate_unfold, Ha, fillGrid_empty_pool; [done|lia].
  - destruct (generateShuffledGridFrom pool secret draws) as [[grid rest]|e|] eqn:Hgen;
      [|by apply generate_no_throw in Hgen|done].
    apply generate_ret in Hgen as (new & Hp & Hnd & Hnew & Hlen).
    assert (length new ≤ length (remove_dups (eligible pool secret))) as Hle.
    { apply NoDup_length_le; [done|]. intros x Hx.
      apply elem_of_remove_dups, eligible_spec. auto. }
    specialize (Hlen ltac:(lia)). rewrite Hp, length_app in Hlen. lia.
Qed.

Lemma picks_onto avail (l : list string) :
  (∀ x, x ∈ l → x ∈ avail) → ∃ draws, picks avail draws = l.
Proof.
  induction l as [|x l IH]; intros Hl; [by exists []|].
  destruct IH as [draws Hd]; [intros y Hy; apply Hl; by right|].
  destruct (list_elem_of_lookup_1 avail x) as [i Hi]; [apply Hl; by left|].
  exists (i :: draws). rewrite <-Hd. unfold picks. simpl.
  rewrite Nat.mod_small by (by eapply lookup_lt_Some). by rewrite Hi.
Qed.

(** A pool with enough eligible symbols has draws that release the
    generator. *)
Lemma releases_exist pool secret :
  9 - length secret ≤ length (remove_dups (eligible pool secret)) →
  ∃ draws, releases pool secret draws.
Proof.
  intros Hcap.
  destruct (picks_onto (eligible pool secret) (remove_dups (eligible pool secret)))
    as [d1 Hd1]; [intros x Hx; by rewrite elem_of_remove_dups in Hx|].
  exists (d1 ++ replicate 8 0), d1, (replicate 8 0).
  split; [done|]. split; [|by rewrite length_replicate].
  etrans; [exact Hcap|]. unfold fresh_hits. rewrite Hd1.
  apply NoDup_length_le; [apply NoDup_remove_dups|].
  intros x Hx. apply elem_of_remove_dups, list_elem_of_filter. split; [|done].
  apply elem_of_remove_dups, eligible_spec in Hx. tauto.
Qed.

Lemma NoDup_EMOJI_POOL : NoDup EMOJI_POOL.
Proof. apply (bool_decide_unpack (NoDup EMOJI_POOL)). vm_compute. exact I. Qed.

(** The pool of the server is never short: its 12 symbols leave at least
    [9 - len] eligible ones whatever the pattern. *)
Lemma EMOJI_POOL_suffices secret :
  9 - length secret ≤ length (remove_dups (eligible EMOJI_POOL secret)).
Proof.
  set (P := λ e : string, negb (includes e secret)).
  assert (length (filter (λ x, ¬ P x) EMOJI_POOL) ≤ length secret) as Hin.
  { apply NoDup_length_le; [apply NoDup_filter, NoDup_EMOJI_POOL|].
    intros x [Hx _]%list_elem_of_filter. subst P. unfold includes in Hx. simpl in Hx.
    rewrite negb_True, bool_decide_spec in Hx. by apply dec_stable. }
  assert (length (eligible EMOJI_POOL secret) ≤ length (remove_dups (eligible EMOJI_POOL secret)))
    as Hdup.
  { apply NoDup_length_le; [apply NoDup_filter, NoDup_EMOJI_POOL|].
    intros x Hx. by apply elem_of_remove_dups. }
  pose proof (filter_app_complement P EMOJI_POOL) as Hsplit.
  apply Permutation_length in Hsplit. rewrite length_app in Hsplit.
  change (filter P EMOJI_POOL) with (eligible EMOJI_POOL secret) in Hsplit.
  change (length EMOJI_POOL) with 12 in Hsplit. lia.
Qed.

(** C9, as the code has it: for a pattern of at most 9 symbols and a pool
    with at least [9 - len] different eligible symbols, the generator returns
    a 9-symbol grid on all draws that select enough different decoys (and
    such draws exist), not on all draws; with fewer eligible symbols it never
    returns a grid, throwing a [RangeError] when no symbol is eligible and
    running for ever otherwise. *)
Theorem generate_totality pool secret :
  length secret ≤ 9 →
  let capacity := length (remove_dups (eligible pool secret)) in
  (9 - length secret ≤ capacity →
     (∃ draws, releases pool secret draws)
     ∧ ∀ draws, releases pool secret draws →
         ∃ grid rest, generateShuffledGridFrom pool secret draws = Ret (grid, rest)
                      ∧ length grid = 9)
  ∧ (capacity < 9 - length secret →
     ∀ draws,
       generateShuffledGridFrom pool secret draws
       = if decide (eligible pool secret = []) then Throw ERR_OUT_OF_RANGE else Starved).
Proof.
  intros Hlen capacity. split.
  - intros Hcap. split; [by apply releases_exist|].
    intros draws Hrel. by apply generate_releases.
  - intros Hcap draws. by apply generate_short_pool.
Qed.

Lemma generate_totality_witness :
  let capacity := length (remove_dups (eligible EMOJI_POOL DEMO_SECRET)) in
  (length DEMO_SECRET ≤ 9 ∧ 9 - length DEMO_SECRET ≤ capacity)
  ∧ (9 - length DEMO_SECRET ≤ capacity →
       (∃ draws, releases EMOJI_POOL DEMO_SECRET draws)
       ∧ ∀ draws, releases EMOJI_POOL DEMO_SECRET draws →
           ∃ grid rest, generateShuffledGridFrom EMOJI_POOL DEMO_SECRET draws = Ret (grid, rest)
                        ∧ length grid = 9)
  ∧ (capacity < 9 - length DEMO_SECRET →
     ∀ draws,
       generateShuffledGridFrom EMOJI_POOL DEMO_SECRET draws
       = if decide (eligible EMOJI_POOL DEMO_SECRET = [])
         then Throw ERR_OUT_OF_RANGE else Starved).
Proof.
  intros capacity.
  assert (length DEMO_SECRET ≤ 9) as Hlen by (simpl; lia).
  split; [split; [exact Hlen|vm_compute; lia]|].
  exact (generate_totality EMOJI_POOL DEMO_SECRET Hlen).
Defined.

Lemma fillGrid_repeated_draw fuel avail r : ∀ n grid,
  avail ≠ [] → length grid < 9 → avail !!! (r mod length avail) ∈ grid →
  fillGrid fuel avail grid (replicate n r) = Starved.
Proof.
  induction fuel as [|fuel IH]; intros n grid Ha Hlen Hin.
  { simpl. by rewrite decide_True. }
  rewrite fillGrid_iter by done. destruct n as [|n]; simpl.
  - by rewrite randomInt_nil by by apply avail_pos.
  - rewrite randomInt_cons by by apply avail_pos.
    rewrite bool_decide_eq_true_2 by done. by apply IH.
Qed.

(** C9 as stated fails on both sides.  A pool with one eligible symbol for
    the 3-symbol pattern (6 are needed) does not make the generator fail: on
    all draws it is still looping.  And the 12-symbol pool of the server,
    with 9 eligible symbols, does not make it return on all draws: as long
    as the random source repeats one draw, the loop goes on. *)
Lemma generator_neither_fails_nor_always_returns :
  let pool := ["🍎"; "🎧"; "🔥"; "🚀"] in
  (0 < length (eligible pool DEMO_SECRET) < 9 - length DEMO_SECRET
   ∧ ∀ draws, generateShuffledGridFrom pool DEMO_SECRET draws = Starved)
  ∧ (9 - length DEMO_SECRET ≤ length (eligible EMOJI_POOL DEMO_SECRET)
     ∧ ∀ n, generateShuffledGrid DEMO_SECRET (replicate n 0) = Starved).
Proof.
  split.
  - split; [vm_compute; lia|]. intros draws.
    rewrite generate_short_pool by (vm_compute; lia).
    rewrite decide_False; [done|]. vm_compute. discriminate.
  - split; [vm_compute; lia|]. intros n.
    unfold generateShuffledGrid.
    rewrite generate_unfold, eligible_demo, length_replicate.
    rewrite fillGrid_iter by (simpl; lia).
    destruct n as [|n]; simpl replicate.
    + by rewrite randomInt_nil by (simpl; lia).
    + rewrite randomInt_cons by (simpl; lia).
      rewrite bool_decide_eq_false_2 by compute_done.
      rewrite fillGrid_repeated_draw; [done|done|simpl; lia|compute_done].
Qed.

(** ** The first generation *)

(** X16: there too a pattern is accepted once: the [PASS] removes the
    session, and the replay is answered [FAIL], without any error code. *)
Lemma legacy_replay_fails sessions session_id input sessions' answer input' :
  Legacy.verify_auth sessions session_id input = Ret (sessions', answer) →
  field "result" answer = JStr "PASS" →
  Legacy.verify_auth sessions' session_id input'
  = Ret (sessions', Response 200 [("result", JStr "FAIL")]).
Proof.
  unfold Legacy.verify_auth. intros H Hpass.
  destruct (Legacy.get sessions session_id) as [s|] eqn:Hs;
    [|by injection H as <- <-].
  destruct (Legacy.hash input) as [h| |]; [|done..].
  destruct (String.eqb h (Legacy.hash_ s)); injection H as <- <-; [|done].
  destruct session_id as [| | | |k| | |]; try done. simpl.
  by rewrite lookup_delete_eq.
Qed.
(** * Further properties of the server *)

(** ** The shuffle *)

(** X1: [shuffleArray] reads exactly [length - 1] draws, never throws, and
    returns a rearrangement of the array: the same elements, each as often
    as before; with fewer draws at hand it is still running. *)
Theorem shuffleArray_permutes (array : list string) (draws : list nat) :
  (length array - 1 ≤ length draws →
   ∃ shuffled, shuffleArray array draws = Ret (shuffled, drop (length array - 1) draws)
               ∧ shuffled ≡ₚ array)
  ∧ (length draws < length array - 1 → shuffleArray array draws = Starved).
Proof.
  pose proof (shuffleArray_spec array draws) as H. split; intros Hd.
  - by rewrite decide_True in H.
  - by rewrite decide_False in H by lia.
Qed.

(** ** The reaper *)

Lemma cleanup_lookup_Some sessions now sid s :
  cleanupExpiredSessions now sessions !! sid = Some s
  ↔ sessions !! sid = Some s ∧ (now ≤ expiresAt s)%Z.
Proof.
  unfold cleanupExpiredSessions. rewrite map_lookup_filter_Some. simpl.
  split; intros [? ?]; split; (done || lia).
Qed.

Lemma cleanup_delete sessions now sid :
  cleanupExpiredSessions now (delete sid sessions)
  = delete sid (cleanupExpiredSessions now sessions).
Proof. apply map_filter_delete. Qed.

Lemma cleanup_insert sessions now sid s :
  (now ≤ expiresAt s)%Z →
  cleanupExpiredSessions now (<[sid := s]> sessions)
  = <[sid := s]> (cleanupExpiredSessions now sessions).
Proof. intros H. apply map_filter_insert_True. simpl. lia. Qed.

(** X4: sweeping at [t1] and then at [t2] leaves what one sweep at the later
    of the two leaves; a second sweep at the same time changes nothing; a
    sweep never makes the table larger. *)
Theorem cleanup_compose sessions t1 t2 :
  cleanupExpiredSessions t2 (cleanupExpiredSessions t1 sessions)
  = cleanupExpiredSessions (Z.max t1 t2) sessions
  ∧ cleanupExpiredSessions t1 (cleanupExpiredSessions t1 sessions)
    = cleanupExpiredSessions t1 sessions
  ∧ size (cleanupExpiredSessions t1 sessions) ≤ size sessions.
Proof.
  assert (∀ a b, cleanupExpiredSessions b (cleanupExpiredSessions a sessions)
                 = cleanupExpiredSessions (Z.max a b) sessions) as Hc.
  { intros a b. apply map_eq. intros sid. apply option_eq. intros s.
    rewrite !cleanup_lookup_Some. intuition lia. }
  split; [apply Hc|]. split.
  - by rewrite Hc, Z.max_id.
  - apply map_subseteq_size, map_filter_subseteq.
Qed.

(** X5: a sweep of the reaper before a [/verify-auth], at a clock reading not
    after the one of the request, changes neither the status nor the verdict
    of the answer, and the table afterwards is the swept form of the table
    the request would have left; the answer itself is the same, or
    [INVALID_SESSION] where the entry was swept. *)
Theorem sweep_commutes_with_verify sessions sweep session_id input now iso :
  (sweep ≤ now)%Z →
  let before := verify_auth sessions session_id input now iso in
  let after := verify_auth (cleanupExpiredSessions sweep sessions) session_id input now iso in
  after.1 = cleanupExpiredSessions sweep before.1
  ∧ (after.2 = before.2 ∨ after.2 = INVALID_SESSION)
  ∧ status after.2 = status before.2
  ∧ field "result" after.2 = field "result" before.2.
Proof.
  intros Hclock before after. subst before after.
  destruct (valid_request session_id input) eqn:Hv; cycle 1.
  { destruct (verify_auth_rejects _ _ now iso Hv) as [msg Hm]. rewrite !Hm. simpl. auto. }
  apply valid_request_spec in Hv as (sid & elems & -> & Hsid & -> & Hlen).
  rewrite !verify_auth_guards by done.
  destruct (sessions !! sid) as [s|] eqn:Hs.
  - destruct (decide (sweep ≤ expiresAt s)%Z) as [Hkeep|Hdrop].
    + assert (cleanupExpiredSessions sweep sessions !! sid = Some s) as ->
        by by apply cleanup_lookup_Some.
      repeat case_match; simpl; rewrite ?cleanup_delete; auto.
      all: rewrite cleanup_insert by done; auto.
    + assert (cleanupExpiredSessions sweep sessions !! sid = None) as Hgone
        by (eapply cleanup_lookup_expired; [done|lia]).
      rewrite Hgone.
      assert (cleanupExpiredSessions sweep (delete sid sessions)
              = cleanupExpiredSessions sweep sessions) as Hd
        by by rewrite cleanup_delete, delete_id.
      destruct (used s); [simpl; rewrite Hd; auto|].
      replace (now >? expiresAt s)%Z with true by lia. simpl. rewrite Hd. auto.
  - assert (cleanupExpiredSessions sweep sessions !! sid = None) as ->.
    { apply eq_None_not_Some. intros [s Hs']. apply cleanup_lookup_Some in Hs' as [? _].
      congruence. }
    simpl. auto.
Qed.

Lemma sweep_commutes_with_verify_witness :
  let before := verify_auth demo_table (JStr demo_uuid) demo_answer 70000 "t" in
  let after := verify_auth (cleanupExpiredSessions 65000 demo_table) (JStr demo_uuid)
                 demo_answer 70000 "t" in
  (65000 ≤ 70000)%Z
  ∧ after.1 = cleanupExpiredSessions 65000 before.1
  ∧ (after.2 = before.2 ∨ after.2 = INVALID_SESSION)
  ∧ status after.2 = status before.2
  ∧ field "result" after.2 = field "result" before.2.
Proof.
  assert (65000 ≤ 70000)%Z as H by lia.
  split; [exact H|].
  exact (sweep_commutes_with_verify demo_table 65000 (JStr demo_uuid) demo_answer 70000 "t" H).
Defined.

(** ** Requests [/start-auth] turns down *)

(** X6: a [user_id] that is missing, not a string, or the empty string is
    answered 400 [INVALID_REQUEST]; the table is unchanged and no draw is
    read. *)
Theorem start_auth_bad_request sessions user_id uuid now draws :
  (∀ uid, user_id = JStr uid → uid = "") →
  start_auth sessions user_id uuid now draws
  = Ret ((sessions, bad_request "user_id is required and must be a string"), draws).
Proof.
  intros H. unfold start_auth, try_catch.
  destruct user_id as [| |b|n|uid| | |]; try reflexivity.
  - by destruct b.
  - simpl. by destruct (n =? 0)%Z.
  - by rewrite (H uid eq_refl).
Qed.

Lemma start_auth_bad_request_witness :
  (∀ uid, JNum 123 = JStr uid → uid = "")
  ∧ start_auth demo_table (JNum 123) demo_uuid 1000 demo_draws
    = Ret ((demo_table, bad_request "user_id is required and must be a string"), demo_draws).
Proof.
  assert (∀ uid, JNum 123 = JStr uid → uid = "") as H by (intros uid [=]).
  split; [exact H|].
  exact (start_auth_bad_request demo_table (JNum 123) demo_uuid 1000 demo_draws H).
Defined.

(** X7: a non-empty [user_id] that is neither a key of [USER_DATABASE] nor a
    member inherited from [Object.prototype] is answered 404
    [USER_NOT_FOUND]; the table is unchanged and no draw is read. *)
Theorem start_auth_user_not_found sessions uid uuid now draws :
  uid ≠ "" → USER_DATABASE !! uid = None → uid ∉ OBJECT_PROTOTYPE →
  start_auth sessions (JStr uid) uuid now draws
  = Ret ((sessions,
          Response 404 [("error", JStr "USER_NOT_FOUND");
                        ("message", JStr "User not found in authentication system")]),
         draws).
Proof.
  intros Huid Hdb Hproto. unfold start_auth, try_catch. simpl.
  apply String.eqb_neq in Huid. rewrite Huid. simpl.
  unfold USER_DATABASE_get. rewrite Hdb.
  by rewrite bool_decide_eq_false_2.
Qed.

Lemma start_auth_user_not_found_witness :
  ("U999" ≠ "" ∧ USER_DATABASE !! "U999" = None ∧ "U999" ∉ OBJECT_PROTOTYPE)
  ∧ start_auth demo_table (JStr "U999") demo_uuid 1000 demo_draws
    = Ret ((demo_table,
            Response 404 [("error", JStr "USER_NOT_FOUND");
                          ("message", JStr "User not found in authentication system")]),
           demo_draws).
Proof.
  assert ("U999" ≠ "") as H1 by discriminate.
  assert (USER_DATABASE !! "U999" = None) as H2 by (vm_compute; reflexivity).
  assert ("U999" ∉ OBJECT_PROTOTYPE) as H3.
  { apply (bool_decide_unpack ("U999" ∉ OBJECT_PROTOTYPE)). vm_compute. exact I. }
  split; [by repeat split|].
  exact (start_auth_user_not_found demo_table "U999" demo_uuid 1000 demo_draws H1 H2 H3).
Defined.

Lemma generateShuffledGrid_no_throw secret draws e :
  generateShuffledGrid secret draws ≠ Throw e.
Proof.
  unfold generateShuffledGrid.
  destruct (decide (length secret < 9)) as [Hlt|Hge].
  - apply generate_no_throw. intros Hnil.
    pose proof (EMOJI_POOL_suffices secret) as H. rewrite Hnil in H. simpl in H. lia.
  - rewrite generate_unfold, fillGrid_full by lia.
    pose proof (shuffleArray_spec secret draws) as Hspec.
    destruct (decide _); [destruct Hspec as (? & -> & _)|rewrite Hspec]; done.
Qed.

(** X8: the one way into the [catch] of [/start-auth] is a request without
    a body, whose destructuring throws: it is answered 500 [INTERNAL_ERROR],
    the table and the draws untouched.  With a body, whatever it holds, an
    answer has status 200, 400 or 404, never 500, and nothing is thrown past
    the handler. *)
Theorem start_auth_500_only_without_body sessions body uuid now draws :
  match post_start_auth sessions body uuid now draws with
  | Ret ((sessions', answer), rest) =>
      if has_body body
      then status answer = 200 ∨ status answer = 400 ∨ status answer = 404
      else sessions' = sessions ∧ rest = draws
           ∧ answer = internal_error "Authentication system error"
  | Throw _ => False
  | Starved => has_body body = true
  end.
Proof.
  destruct (has_body body) eqn:Hb; [|by destruct body].
  assert (∃ user_id, post_start_auth sessions body uuid now draws
                     = start_auth sessions user_id uuid now draws) as [user_id ->].
  { destruct body; try discriminate; unfold post_start_auth; simpl; eauto. }
  unfold start_auth, try_catch, mbind, Rand_bind.
  destruct (negb (truthy user_id) || negb (String.eqb (typeof user_id) "string"));
    [simpl; auto|].
  pose proof (generateShuffledGrid_no_throw DEMO_SECRET draws) as Hnt.
  destruct (USER_DATABASE_get (chars user_id)); simpl; auto;
    destruct (generateShuffledGrid DEMO_SECRET draws) as [[grid rest]|e|]; simpl; auto;
      by destruct (Hnt e).
Qed.

(** ** When [/verify-auth] answers [PASS] *)

Lemma strict_eq_JStr h v : strict_eq (JStr h) v = true ↔ v = JStr h.
Proof.
  unfold strict_eq. destruct v; try (split; [discriminate|intros [=]]).
  rewrite String.eqb_eq. split; [by intros ->|by intros [=]].
Qed.

Lemma verify_pass_elim sessions session_id input now iso :
  field "result" (verify_auth sessions session_id input now iso).2 = JStr "PASS" →
  ∃ sid elems s h,
      session_id = JStr sid ∧ sid ≠ "" ∧ input = JArr elems ∧ length elems = 3
      ∧ sessions !! sid = Some s
      ∧ used s = false
      ∧ (now ≤ expiresAt s)%Z
      ∧ (attempts s < maxAttempts s)%Z
      ∧ hashVisualPattern elems = Ret h
      ∧ secretHash s = JStr h.
Proof.
  intros Hpass.
  destruct (valid_request session_id input) eqn:Hv; cycle 1.
  { by destruct (verify_auth_invalid sessions _ _ now iso Hv) as [msg Hm];
      rewrite Hm in Hpass. }
  apply valid_request_spec in Hv as (sid & elems & -> & Hsid & -> & Hlen).
  exists sid, elems. revert Hpass. rewrite verify_auth_guards by done.
  destruct (sessions !! sid) as [s|] eqn:Hs; [|done].
  destruct (used s) eqn:Hu; [done|].
  destruct (now >? expiresAt s)%Z eqn:He; [done|].
  destruct (attempts s >=? maxAttempts s)%Z eqn:Ha; [done|].
  destruct (hashVisualPattern elems) as [h| |] eqn:Hh; [|done..].
  destruct (strict_eq _ _) eqn:Hm; [|destruct (_ + 1 >=? _)%Z; simpl; intros [=]].
  intros _. exists s, h. apply strict_eq_JStr in Hm.
  split_and!; try done; lia.
Qed.

Lemma verify_pass_intro sessions sid elems s h now iso :
  sid ≠ "" → length elems = 3 → sessions !! sid = Some s → used s = false →
  (now ≤ expiresAt s)%Z → (attempts s < maxAttempts s)%Z →
  hashVisualPattern elems = Ret h → secretHash s = JStr h →
  verify_auth sessions (JStr sid) (JArr elems) now iso
  = (delete sid sessions, pass (userId s) iso).
Proof.
  intros Hsid Hlen Hs Hu He Ha Hh Hm.
  rewrite verify_auth_guards, Hs, Hu, Hh by done.
  replace (now >? expiresAt s)%Z with false by lia.
  replace (attempts s >=? maxAttempts s)%Z with false by lia.
  by replace (strict_eq _ _) with true by (symmetry; by apply strict_eq_JStr).
Qed.

(** X10: [/verify-auth] answers [PASS] exactly when the request is well
    formed, the session is in the table, unused, not past [expiresAt] (the
    instant [expiresAt] itself still counts), below its attempt budget, and
    the candidate is hashed, without an exception, to the stored hash; the
    answer then carries the user of the session and the session is
    removed. *)
Theorem verify_pass_iff sessions session_id input now iso :
  (field "result" (verify_auth sessions session_id input now iso).2 = JStr "PASS"
   ↔ ∃ sid elems s h,
       session_id = JStr sid ∧ sid ≠ "" ∧ input = JArr elems ∧ length elems = 3
       ∧ sessions !! sid = Some s
       ∧ used s = false
       ∧ (now ≤ expiresAt s)%Z
       ∧ (attempts s < maxAttempts s)%Z
       ∧ hashVisualPattern elems = Ret h
       ∧ secretHash s = JStr h)
  ∧ ∀ sid s,
      session_id = JStr sid → sessions !! sid = Some s →
      field "result" (verify_auth sessions session_id input now iso).2 = JStr "PASS" →
      verify_auth sessions session_id input now iso
      = (delete sid sessions, pass (userId s) iso).
Proof.
  split; [split; [apply verify_pass_elim|]|].
  - intros (sid & elems & s & h & -> & Hsid & -> & Hlen & Hs & Hu & He & Ha & Hh & Hm).
    by rewrite (verify_pass_intro _ _ _ s h).
  - intros sid s -> Hs Hpass.
    apply verify_pass_elim in Hpass
      as (? & elems & s' & h & [= <-] & Hsid & -> & Hlen & Hs' & Hu & He & Ha & Hh & Hm).
    assert (s' = s) as -> by congruence.
    by apply (verify_pass_intro _ _ _ s h).
Qed.

(** ** A challenge answered in time *)

(** X11: after [/start-auth] has answered for a registered user, a
    [/verify-auth] with the returned id and the user's pattern, at a clock
    reading up to 60 seconds after the one of the challenge, answers [PASS]
    for that user and removes the session. *)
Theorem challenge_then_answer sessions uid u uuid now draws sessions' answer rest now' iso :
  USER_DATABASE !! uid = Some u →
  start_auth sessions (JStr uid) uuid now draws = Ret ((sessions', answer), rest) →
  uuid ≠ "" → (now' ≤ now + 60000)%Z →
  verify_auth sessions' (JStr uuid) (JArr (JStr <$> DEMO_SECRET)) now' iso
  = (delete uuid sessions, pass uid iso).
Proof.
  intros Hu Hstart Huuid Hnow.
  pose proof (start_auth_registered sessions uid u uuid now draws Hu) as Hreg.
  destruct (generateShuffledGrid DEMO_SECRET draws) as [[grid rest']|e|];
    [|destruct Hreg|rewrite Hreg in Hstart; discriminate Hstart].
  destruct Hreg as [Hreg Hnew]. rewrite Hreg in Hstart. injection Hstart as <- <- <-.
  rewrite Hnew. destruct (USER_DATABASE_lookup _ _ Hu) as [_ Hh].
  erewrite verify_pass_intro;
    [|done|done|apply lookup_insert_eq|done|simpl; lia|simpl; lia|exact Hh|done].
  by rewrite delete_insert_eq.
Qed.

Lemma challenge_then_answer_witness :
  let u := {| user_userId := "U123";
              user_secretHash :=
                "71d9d0d740e5d44281516dc085c9ad814e4ea9570dcdcfd01cbb1971862113c8" |} in
  let grid := ["🎯"; "⭐"; "🔑"; "🔥"; "🎧"; "🔒"; "🍎"; "🚀"; "💎"] in
  (USER_DATABASE !! "U123" = Some u
   ∧ start_auth ∅ (JStr "U123") demo_uuid 1000 demo_draws
     = Ret ((demo_table, challenge demo_uuid grid), [6])
   ∧ demo_uuid ≠ "" ∧ (61000 ≤ 1000 + 60000)%Z)
  ∧ verify_auth demo_table (JStr demo_uuid) (JArr (JStr <$> DEMO_SECRET)) 61000 "t"
    = (delete demo_uuid ∅, pass "U123" "t").
Proof.
  intros u grid.
  assert (USER_DATABASE !! "U123" = Some u) as Hu by (vm_compute; reflexivity).
  assert (start_auth ∅ (JStr "U123") demo_uuid 1000 demo_draws
          = Ret ((demo_table, challenge demo_uuid grid), [6])) as Hstart
    by (vm_compute; reflexivity).
  assert (demo_uuid ≠ "") as Huuid by discriminate.
  assert (61000 ≤ 1000 + 60000)%Z as Hnow by lia.
  split; [by repeat split|].
  exact (challenge_then_answer ∅ "U123" u demo_uuid 1000 demo_draws demo_table
           (challenge demo_uuid grid) [6] 61000 "t" Hu Hstart Huuid Hnow).
Defined.

(** ** Sessions of inherited members *)

Lemma no_hash_never_passes (sessions : table) sid s input now iso :
  sessions !! sid = Some s → secretHash s = JUndefined →
  field "result" (verify_auth sessions (JStr sid) input now iso).2 ≠ JStr "PASS".
Proof.
  intros Hs Hh Hpass. apply verify_pass_elim in Hpass
    as (sid' & elems & s' & h & [= <-] & _ & _ & _ & Hs' & _ & _ & _ & _ & Hh').
  congruence.
Qed.

(** X9: a [user_id] naming a member every object inherits (such as
    [constructor]) passes the look-up of [/start-auth]: a session is stored
    and a grid returned, but the session has no secret hash, and no
    [/verify-auth] on it ever answers [PASS]. *)
Theorem inherited_member_never_passes sessions uid uuid now draws :
  uid ∈ OBJECT_PROTOTYPE →
  releases EMOJI_POOL DEMO_SECRET draws →
  ∃ grid rest,
    let s := mkSession uuid uid JUndefined grid now (now + 60000) false 0 3 in
    start_auth sessions (JStr uid) uuid now draws
    = Ret ((<[uuid := s]> sessions, challenge uuid grid), rest)
    ∧ ∀ input now' iso,
        field "result" (verify_auth (<[uuid := s]> sessions) (JStr uuid) input now' iso).2
        ≠ JStr "PASS".
Proof.
  intros Hproto Hrel.
  destruct (generate_releases EMOJI_POOL DEMO_SECRET draws) as (grid & rest & Hgen & _);
    [simpl; lia|done|].
  assert (USER_DATABASE_get uid = Inherited) as Hget.
  { unfold USER_DATABASE_get.
    destruct (USER_DATABASE !! uid) as [u|] eqn:Hu.
    - apply USER_DATABASE_lookup in Hu as [-> _]. exfalso. revert Hproto.
      apply (bool_decide_unpack ("U123" ∉ OBJECT_PROTOTYPE)). vm_compute. exact I.
    - by rewrite bool_decide_eq_true_2. }
  assert (uid ≠ "") as Huid.
  { intros ->. revert Hproto.
    apply (bool_decide_unpack ("" ∉ OBJECT_PROTOTYPE)). vm_compute. exact I. }
  exists grid, rest. simpl. split.
  - rewrite (start_auth_success sessions uid uuid now draws grid rest);
      [|done|by rewrite Hget|done].
    unfold new_session. by rewrite Hget.
  - intros input now' iso. eapply no_hash_never_passes; [apply lookup_insert_eq|done].
Qed.

Lemma inherited_member_never_passes_witness :
  ("constructor" ∈ OBJECT_PROTOTYPE ∧ releases EMOJI_POOL DEMO_SECRET demo_draws)
  ∧ ∃ grid rest,
      let s := mkSession demo_uuid "constructor" JUndefined grid 1000 (1000 + 60000) false 0 3 in
      start_auth ∅ (JStr "constructor") demo_uuid 1000 demo_draws
      = Ret ((<[demo_uuid := s]> ∅, challenge demo_uuid grid), rest)
      ∧ ∀ input now' iso,
          field "result" (verify_auth (<[demo_uuid := s]> ∅) (JStr demo_uuid) input now' iso).2
          ≠ JStr "PASS".
Proof.
  assert ("constructor" ∈ OBJECT_PROTOTYPE) as H.
  { apply (bool_decide_unpack ("constructor" ∈ OBJECT_PROTOTYPE)). vm_compute. exact I. }
  split; [split; [exact H|exact demo_releases]|].
  exact (inherited_member_never_passes ∅ "constructor" demo_uuid 1000 demo_draws
           H demo_releases).
Defined.

(** ** What [/verify-auth] leaves alone *)

Lemma verify_lookup_inv sessions session_id input now iso sid s' :
  (verify_auth sessions session_id input now iso).1 !! sid = Some s' →
  ∃ s, sessions !! sid = Some s
       ∧ (s' = s ∨ (session_id = JStr sid ∧ s' = set_attempts (attempts s + 1) s)).
Proof.
  destruct (valid_request session_id input) eqn:Hv; cycle 1.
  { destruct (verify_auth_invalid sessions _ _ now iso Hv) as [msg ->]. simpl. eauto. }
  apply valid_request_spec in Hv as (sid0 & elems & -> & Hsid & -> & Hlen).
  destruct (verify_table sessions sid0 elems now iso Hsid Hlen)
    as [->|[->|(s & Hs & ->)]].
  - eauto.
  - intros [Hne Hs']%lookup_delete_Some. eauto.
  - destruct (decide (sid0 = sid)) as [<-|Hne].
    + rewrite lookup_insert_eq. intros [= <-]. eauto.
    + rewrite lookup_insert_ne by done. eauto.
Qed.

(** X12: [/verify-auth] never adds a session and leaves every session other
    than the one it names as it was; the one it names is either removed,
    left as it was, or has exactly one more attempt counted. *)
Theorem verify_frame sessions session_id input now iso :
  let after := (verify_auth sessions session_id input now iso).1 in
  (∀ other, session_id ≠ JStr other → after !! other = sessions !! other)
  ∧ (∀ sid s', after !! sid = Some s' →
       ∃ s, sessions !! sid = Some s
            ∧ (s' = s ∨ (session_id = JStr sid ∧ s' = set_attempts (attempts s + 1) s))).
Proof.
  intros after. subst after. split; [|intros sid s'; apply verify_lookup_inv].
  intros other Hother.
  destruct (valid_request session_id input) eqn:Hv; cycle 1.
  { by destruct (verify_auth_invalid sessions _ _ now iso Hv) as [msg ->]. }
  apply valid_request_spec in Hv as (sid & elems & -> & Hsid & -> & Hlen).
  destruct (verify_table sessions sid elems now iso Hsid Hlen)
    as [->|[->|(s & Hs & ->)]]; [done| |].
  - apply lookup_delete_ne. congruence.
  - apply lookup_insert_ne. congruence.
Qed.

(** ** What the table holds *)

Lemma demo_grid_ok draws grid rest :
  generateShuffledGrid DEMO_SECRET draws = Ret (grid, rest) →
  length grid = 9 ∧ NoDup grid ∧ ∀ x, x ∈ DEMO_SECRET → x ∈ grid.
Proof.
  intros (new & Hp & Hnd & Hnew & Hlen)%generate_ret.
  split; [apply Hlen; simpl; lia|]. split.
  - rewrite Hp. apply NoDup_app. split; [apply NoDup_DEMO_SECRET|].
    split; [|done]. intros x Hx Hx'. destruct (Hnew x Hx'). contradiction.
  - intros x Hx. rewrite Hp. apply elem_of_app. by left.
Qed.

Lemma stored_ok_set_attempts sid n s : stored_ok sid s → stored_ok sid (set_attempts n s).
Proof. by intros H. Qed.

Lemma step_stored sessions ev :
  (∀ sid s, sessions !! sid = Some s →
     stored_ok sid s
     ∧ ((∃ h, hashVisualPattern (JStr <$> DEMO_SECRET) = Ret h ∧ secretHash s = JStr h)
        ∨ secretHash s = JUndefined)) →
  ∀ sid s, step sessions ev !! sid = Some s →
    stored_ok sid s
    ∧ ((∃ h, hashVisualPattern (JStr <$> DEMO_SECRET) = Ret h ∧ secretHash s = JStr h)
       ∨ secretHash s = JUndefined).
Proof.
  intros IH sid s.
  destruct ev as [user_id uuid now draws|session_id input now iso|now]; simpl.
  - destruct (start_auth _ _ _ _ _) as [[[sessions' resp] rest]| |] eqn:H; [|by apply IH..].
    apply start_auth_inv in H as [[-> _]|(uid & grid & _ & _ & _ & Hgen & -> & _)];
      [by apply IH|].
    simpl. destruct (decide (uuid = sid)) as [<-|Hne];
      [|rewrite lookup_insert_ne by done; by apply IH].
    rewrite lookup_insert_eq. intros [= <-].
    apply demo_grid_ok in Hgen as (Hlen & Hnd & Hin).
    split; [unfold stored_ok, new_session, SESSION_TIMEOUT_MS; simpl; split_and!; done|].
    unfold new_session, USER_DATABASE_get. simpl.
    destruct (USER_DATABASE !! uid) as [u|] eqn:Hu.
    + left. simpl. destruct (USER_DATABASE_lookup _ _ Hu) as [_ Hh]. eauto.
    + right. by destruct (bool_decide _).
  - intros Hs.
    destruct (verify_lookup_inv _ _ _ _ _ _ _ Hs) as (s0 & Hs0 & [->|[_ ->]]); [by apply IH|].
    destruct (IH _ _ Hs0). split; [by apply stored_ok_set_attempts|done].
  - intros [Hs _]%cleanup_lookup_Some. by apply IH.
Qed.

Lemma reachable_stored sessions sid s :
  reachable sessions → sessions !! sid = Some s →
  stored_ok sid s
  ∧ ((∃ h, hashVisualPattern (JStr <$> DEMO_SECRET) = Ret h ∧ secretHash s = JStr h)
     ∨ secretHash s = JUndefined).
Proof.
  intros Hr. revert sid s.
  induction Hr as [|sessions ev _ IH]; [intros sid s; by rewrite lookup_empty|].
  by apply step_stored.
Qed.

(** X13: every session of a reachable table is stored under its own id,
    holds a grid of 9 different symbols among which are those of the demo
    pattern, expires 60 seconds after its creation, has a budget of 3, and
    its secret hash is the registered one or missing. *)
Theorem reachable_sessions_stored_ok sessions sid s :
  reachable sessions → sessions !! sid = Some s →
  stored_ok sid s
  ∧ ((∃ h, hashVisualPattern (JStr <$> DEMO_SECRET) = Ret h ∧ secretHash s = JStr h)
     ∨ secretHash s = JUndefined).
Proof.
  intros Hr. revert sid s.
  induction Hr as [|sessions ev _ IH]; intros sid s.
  - intros Hs. by rewrite lookup_empty in Hs.
  - intros Hs. by eapply step_stored.
Qed.

Lemma reachable_sessions_stored_ok_witness :
  let s := new_session demo_uuid "U123"
             ["🎯"; "⭐"; "🔑"; "🔥"; "🎧"; "🔒"; "🍎"; "🚀"; "💎"] 1000 in
  (reachable demo_table ∧ demo_table !! demo_uuid = Some s)
  ∧ stored_ok demo_uuid s
  ∧ ((∃ h, hashVisualPattern (JStr <$> DEMO_SECRET) = Ret h ∧ secretHash s = JStr h)
     ∨ secretHash s = JUndefined).
Proof.
  intros s. split; [split; [exact demo_table_reachable|exact demo_table_lookup]|].
  exact (reachable_sessions_stored_ok demo_table demo_uuid s
           demo_table_reachable demo_table_lookup).
Defined.

(** ** The rate limit *)

Lemma budget_bounds sessions sid :
  table_ok sessions →
  (0 ≤ budget sessions sid ≤ 4)%Z ∧ (budget sessions sid = 0%Z ↔ sessions !! sid = None).
Proof.
  intros Hok. unfold budget. destruct (sessions !! sid) as [s|] eqn:Hs; [|by split; [lia|]].
  destruct (Hok _ _ Hs) as (_ & Ha & Hm & _). split; [lia|]. split; [lia|done].
Qed.

Lemma budget_at_cap sessions sid s :
  table_ok sessions → sessions !! sid = Some s → (budget sessions sid ≤ 1)%Z →
  attempts s = maxAttempts s.
Proof.
  intros Hok Hs. unfold budget. rewrite Hs.
  destruct (Hok _ _ Hs) as (_ & Ha & _). lia.
Qed.

Lemma run_table_ok sessions evs : table_ok sessions → table_ok (run sessions evs).
Proof.
  revert sessions. induction evs as [|ev evs IH]; intros sessions H; [done|].
  simpl. by apply IH, step_table_ok.
Qed.

Lemma step_budget sessions sid ev :
  table_ok sessions → ¬ mints sid ev →
  (budget (step sessions ev) sid ≤ budget sessions sid)%Z.
Proof.
  intros Hok Hev. pose proof (budget_bounds sessions sid Hok) as [Hb Hnone].
  destruct (sessions !! sid) as [s|] eqn:Hs; cycle 1.
  { unfold budget at 1. by rewrite step_absent, (proj2 Hnone). }
  destruct ev as [user_id uuid now draws|session_id input now iso|now]; simpl in *.
  - destruct (start_auth _ _ _ _ _) as [[[sessions' resp] rest]| |] eqn:H; [|done..].
    apply start_auth_inv in H as [[-> _]|(uid & grid & _ & _ & _ & _ & -> & _)]; [done|].
    simpl. unfold budget. by rewrite lookup_insert_ne.
  - unfold budget at 1.
    destruct ((verify_auth sessions session_id input now iso).1 !! sid) as [s'|] eqn:Hs';
      [|lia].
    destruct (verify_lookup_inv _ _ _ _ _ _ _ Hs') as (s0 & Hs0 & [->|[_ ->]]);
      unfold budget; rewrite Hs0; simpl; lia.
  - unfold budget at 1.
    destruct (cleanupExpiredSessions now sessions !! sid) as [s'|] eqn:Hs'; [|lia].
    apply cleanup_lookup_Some in Hs' as [Hs' _]. unfold budget. rewrite Hs'. lia.
Qed.

Lemma run_budget sessions sid evs :
  table_ok sessions → Forall (λ ev, ¬ mints sid ev) evs →
  (budget (run sessions evs) sid ≤ budget sessions sid)%Z.
Proof.
  intros Hok Hevs. revert sessions Hok.
  induction Hevs as [|ev evs Hev _ IH]; intros sessions Hok; [done|].
  simpl. etrans; [apply IH; by apply step_table_ok|by apply step_budget].
Qed.

(** A well-formed request for the session uses one of them up. *)
Lemma step_budget_verify sessions sid ev :
  table_ok sessions → verifies sid ev →
  (budget (step sessions ev) sid ≤ Z.max 0 (budget sessions sid - 1))%Z.
Proof.
  intros Hok Hev. destruct ev as [|session_id input now iso|]; try done.
  destruct Hev as [-> Hv]. simpl.
  apply valid_request_spec in Hv as (? & elems & [= <-] & Hsid & -> & Hlen).
  rewrite verify_auth_guards by done. unfold budget at 2.
  destruct (sessions !! sid) as [s|] eqn:Hs; [|simpl; unfold budget; rewrite Hs; lia].
  destruct (Hok _ _ Hs) as (_ & Ha & Hm & _).
  repeat case_match; simpl; unfold budget;
    rewrite ?lookup_delete_eq, ?lookup_insert_eq; simpl; lia.
Qed.

(** One whose candidate is hashed does not leave the session at the cap. *)
Lemma step_budget_compares sessions sid ev :
  table_ok sessions → verifies sid ev → compares ev →
  budget (step sessions ev) sid ≠ 1%Z.
Proof.
  intros Hok Hev Hc. destruct ev as [|session_id input now iso|]; try done.
  destruct Hev as [-> Hv]. destruct Hc as [h Hh]. simpl.
  apply valid_request_spec in Hv as (? & elems & [= <-] & Hsid & -> & Hlen).
  simpl in Hh. rewrite verify_auth_guards, Hh by done.
  destruct (sessions !! sid) as [s|] eqn:Hs; [|simpl; unfold budget; by rewrite Hs].
  destruct (Hok _ _ Hs) as (_ & Ha & Hm & _).
  repeat case_match; simpl; unfold budget;
    rewrite ?lookup_delete_eq, ?lookup_insert_eq; simpl; lia.
Qed.

(** X14: in a run from a reachable table in which the random source does not
    hand out the id [sid] again, after three well-formed [/verify-auth]
    requests for [sid], with any other requests and sweeps before, between
    and after them, a session still stored under [sid] has used up its
    attempts (every one of the three was counted, none compared, by an
    exception of the hashing); no session is left under [sid] if the
    candidate of the third request is hashed, and none after a fourth
    well-formed request in any case. *)
Theorem three_attempts_exhaust sessions sid e0 v1 e1 v2 e2 v3 e3 :
  reachable sessions →
  verifies sid v1 → verifies sid v2 → verifies sid v3 →
  Forall (λ ev, ¬ mints sid ev) (e0 ++ e1 ++ e2 ++ e3) →
  let after := run sessions (e0 ++ [v1] ++ e1 ++ [v2] ++ e2 ++ [v3] ++ e3) in
  (∀ s, after !! sid = Some s → attempts s = maxAttempts s)
  ∧ (compares v3 → after !! sid = None)
  ∧ ∀ v4 e4, verifies sid v4 → Forall (λ ev, ¬ mints sid ev) e4 →
             run after ([v4] ++ e4) !! sid = None.
Proof.
  intros Hr V1 V2 V3 Hevs.
  apply Forall_app in Hevs as [H0 Hevs]. apply Forall_app in Hevs as [H1 Hevs].
  apply Forall_app in Hevs as [H2 H3].
  pose proof (reachable_table_ok _ Hr) as Hok.
  unfold run. rewrite !foldl_app. simpl. fold (run sessions e0).
  set (t0 := run sessions e0). set (t1 := run (step t0 v1) e1).
  set (t2 := run (step t1 v2) e2). fold (run (step t2 v3) e3).
  set (t3 := run (step t2 v3) e3).
  assert (table_ok t0) as Hok0 by by apply run_table_ok.
  assert (table_ok t1) as Hok1 by by apply run_table_ok, step_table_ok.
  assert (table_ok t2) as Hok2 by by apply run_table_ok, step_table_ok.
  assert (table_ok t3) as Hok3 by by apply run_table_ok, step_table_ok.
  pose proof (proj1 (budget_bounds t0 sid Hok0)) as B0.
  pose proof (step_budget_verify t0 sid v1 Hok0 V1) as S1.
  pose proof (run_budget (step t0 v1) sid e1 (step_table_ok _ _ Hok0) H1) as R1.
  pose proof (step_budget_verify t1 sid v2 Hok1 V2) as S2.
  pose proof (run_budget (step t1 v2) sid e2 (step_table_ok _ _ Hok1) H2) as R2.
  pose proof (step_budget_verify t2 sid v3 Hok2 V3) as S3.
  pose proof (run_budget (step t2 v3) sid e3 (step_table_ok _ _ Hok2) H3) as R3.
  pose proof (budget_bounds t3 sid Hok3) as [B3 Hnone].
  fold t1 in R1. fold t2 in R2. fold t3 in R3.
  split; [|split].
  - intros s Hs. apply (budget_at_cap t3 sid); [done..|lia].
  - intros C3. subst t3. apply run_absent; [|done].
    apply (budget_bounds _ sid (step_table_ok _ _ Hok2)).
    pose proof (step_budget_compares t2 sid v3 Hok2 V3 C3) as N3.
    pose proof (proj1 (budget_bounds _ sid (step_table_ok _ v3 Hok2))). lia.
  - intros v4 e4 V4 H4. fold (run (step t3 v4) e4).
    pose proof (step_budget_verify t3 sid v4 Hok3 V4) as S4.
    pose proof (run_budget (step t3 v4) sid e4 (step_table_ok _ _ Hok3) H4) as R4.
    assert (table_ok (run (step t3 v4) e4)) as Hok4 by by apply run_table_ok, step_table_ok.
    apply (budget_bounds _ sid Hok4). pose proof (proj1 (budget_bounds _ sid Hok4)). lia.
Qed.

Lemma three_attempts_exhaust_witness :
  let v := VerifyAuth (JStr demo_uuid) (JArr demo_crash) 2000 "t" in
  let e := [StartAuth (JStr "U123") "another-id" 3000 demo_draws; Cleanup 4000] in
  let after := run demo_table (e ++ [v] ++ e ++ [v] ++ e ++ [v] ++ e) in
  (reachable demo_table ∧ verifies demo_uuid v
   ∧ Forall (λ ev, ¬ mints demo_uuid ev) (e ++ e ++ e ++ e))
  ∧ (∀ s, after !! demo_uuid = Some s → attempts s = maxAttempts s)
  ∧ (compares v → after !! demo_uuid = None)
  ∧ ∀ v4 e4, verifies demo_uuid v4 → Forall (λ ev, ¬ mints demo_uuid ev) e4 →
             run after ([v4] ++ e4) !! demo_uuid = None.
Proof.
  intros v e.
  assert (verifies demo_uuid v) as Hv by (split; reflexivity).
  assert (Forall (λ ev, ¬ mints demo_uuid ev) (e ++ e ++ e ++ e)) as He.
  { repeat constructor; simpl; (discriminate || tauto). }
  split; [by repeat split; try apply demo_table_reachable|].
  exact (three_attempts_exhaust demo_table demo_uuid e v e v e v e
           demo_table_reachable Hv Hv Hv He).
Defined.

(** The three requests of that run are answered 500 and the session is
    still stored, at the cap; the fourth one removes it. *)
Example crash_keeps_the_session :
  let v := VerifyAuth (JStr demo_uuid) (JArr demo_crash) 2000 "t" in
  let fourth := verify_auth (run demo_table [v; v; v]) (JStr demo_uuid)
                  (JArr demo_crash) 2000 "t" in
  (attempts <$> run demo_table [v; v; v] !! demo_uuid) = Some 3%Z
  ∧ fourth.2 = MAX_ATTEMPTS
  ∧ fourth.1 !! demo_uuid = None.
Proof. vm_compute. by repeat split. Qed.

(** ** The [catch] of [/verify-auth] *)

(** X22: a well-formed [/verify-auth] for a session that is live and below
    its budget, with a candidate holding an element that cannot be converted
    to a string, is answered 500 [INTERNAL_ERROR] without a verdict: the
    attempt is counted and the session stays in the table, also when the
    attempt was its last one.  A candidate of strings is always hashed. *)
Theorem crash_counts_attempt sessions sid s elems now iso :
  sid ≠ "" → length elems = 3 →
  sessions !! sid = Some s → used s = false →
  (now ≤ expiresAt s)%Z → (attempts s < maxAttempts s)%Z →
  (∃ x, x ∈ elems ∧ toString x = None) →
  let call := verify_auth sessions (JStr sid) (JArr elems) now iso in
  call.1 = <[sid := set_attempts (attempts s + 1) s]> sessions
  ∧ status call.2 = 500
  ∧ field "error" call.2 = JStr "INTERNAL_ERROR"
  ∧ field "result" call.2 = JUndefined
  ∧ ∀ symbols : list string, ∃ h, hashVisualPattern (JStr <$> symbols) = Ret h.
Proof.
  intros Hsid Hlen Hs Hu He Ha Hx call. subst call.
  apply (join_elems_None "|") in Hx.
  rewrite (verify_crash _ _ _ _ _ Hsid Hlen s) by done.
  split_and!; try done.
  intros symbols. rewrite hashVisualPattern_strings. eauto.
Qed.

Lemma crash_counts_attempt_witness :
  let s := set_attempts 2 (new_session demo_uuid "U123"
             ["🎯"; "⭐"; "🔑"; "🔥"; "🎧"; "🔒"; "🍎"; "🚀"; "💎"] 1000) in
  let sessions := <[demo_uuid := s]> demo_table in
  let call := verify_auth sessions (JStr demo_uuid) (JArr demo_crash) 2000 "t" in
  (demo_uuid ≠ "" ∧ length demo_crash = 3 ∧ sessions !! demo_uuid = Some s
   ∧ used s = false ∧ (2000 ≤ expiresAt s)%Z ∧ (attempts s < maxAttempts s)%Z
   ∧ ∃ x, x ∈ demo_crash ∧ toString x = None)
  ∧ call.1 = <[demo_uuid := set_attempts (attempts s + 1) s]> sessions
  ∧ status call.2 = 500
  ∧ field "error" call.2 = JStr "INTERNAL_ERROR"
  ∧ field "result" call.2 = JUndefined
  ∧ ∀ symbols : list string, ∃ h, hashVisualPattern (JStr <$> symbols) = Ret h.
Proof.
  intros s sessions call.
  assert (demo_uuid ≠ "") as Hsid by discriminate.
  assert (sessions !! demo_uuid = Some s) as Hs by apply lookup_insert_eq.
  assert (2000 ≤ expiresAt s)%Z as He by (simpl; unfold SESSION_TIMEOUT_MS; lia).
  assert (attempts s < maxAttempts s)%Z as Ha by (simpl; lia).
  assert (∃ x, x ∈ demo_crash ∧ toString x = None) as Hx.
  { exists unprintable. split; [apply list_elem_of_here|done]. }
  split; [by repeat split|].
  exact (crash_counts_attempt sessions demo_uuid s demo_crash 2000 "t"
           Hsid eq_refl Hs eq_refl He Ha Hx).
Defined.

(** ** The diagnostic endpoint *)

(** X15: on a reachable table [/session-status] answers 404 with
    [exists: false] for an id that is not stored; for a stored one it answers
    200 and echoes the id, the seconds it reports are never negative, at most
    60 unless the clock reads earlier than the creation, and when it reports
    at least one second a [/verify-auth] at the same clock reading is not
    answered [SESSION_EXPIRED]. *)
Theorem session_status_reports toISOString sessions id now :
  reachable sessions →
  match sessions !! id with
  | None =>
      status (session_status toISOString sessions id now) = 404
      ∧ field "exists" (session_status toISOString sessions id now) = JBool false
  | Some s =>
      ∃ seconds,
        status (session_status toISOString sessions id now) = 200
        ∧ field "session_id" (session_status toISOString sessions id now) = JStr id
        ∧ field "time_remaining_seconds" (session_status toISOString sessions id now)
          = JNum seconds
        ∧ (0 ≤ seconds)%Z
        ∧ ((createdAt s ≤ now)%Z → (seconds ≤ 60)%Z)
        ∧ ((1 ≤ seconds)%Z →
           ∀ input iso,
             field "error" (verify_auth sessions (JStr id) input now iso).2
             ≠ JStr "SESSION_EXPIRED")
  end.
Proof.
  intros Hr. unfold session_status.
  destruct (sessions !! id) as [s|] eqn:Hs; [|done].
  destruct (reachable_stored _ _ _ Hr Hs) as [(Hid & _ & _ & _ & He & _) _].
  exists (Z.max 0 (expiresAt s - now) / 1000)%Z. simpl. rewrite Hid.
  split_and!; try done.
  - apply Z.div_pos; lia.
  - intros Hc. apply Z.div_le_upper_bound; lia.
  - intros Hsec input iso.
    assert (now < expiresAt s)%Z as Hlive.
    { destruct (decide (now < expiresAt s)%Z); [done|].
      rewrite Z.max_l in Hsec by lia. rewrite Z.div_0_l in Hsec; lia. }
    destruct (valid_request (JStr id) input) eqn:Hv; cycle 1.
    { by destruct (verify_auth_invalid sessions _ _ now iso Hv) as [msg ->]. }
    apply valid_request_spec in Hv as (? & elems & [= <-] & Hsid & -> & Hlen).
    rewrite verify_auth_guards, Hs by done.
    replace (now >? expiresAt s)%Z with false by lia.
    by repeat case_match.
Qed.

Lemma session_status_reports_witness :
  reachable demo_table
  ∧ match demo_table !! demo_uuid with
    | None =>
        status (session_status pretty demo_table demo_uuid 2000) = 404
        ∧ field "exists" (session_status pretty demo_table demo_uuid 2000) = JBool false
    | Some s =>
        ∃ seconds,
          status (session_status pretty demo_table demo_uuid 2000) = 200
          ∧ field "session_id" (session_status pretty demo_table demo_uuid 2000)
            = JStr demo_uuid
          ∧ field "time_remaining_seconds" (session_status pretty demo_table demo_uuid 2000)
            = JNum seconds
          ∧ (0 ≤ seconds)%Z
          ∧ ((createdAt s ≤ 2000)%Z → (seconds ≤ 60)%Z)
          ∧ ((1 ≤ seconds)%Z →
             ∀ input iso,
               field "error" (verify_auth demo_table (JStr demo_uuid) input 2000 iso).2
               ≠ JStr "SESSION_EXPIRED")
    end.
Proof.
  split; [exact demo_table_reachable|].
  exact (session_status_reports pretty demo_table demo_uuid 2000 demo_table_reachable).
Defined.

(** ** Every order can come out of the shuffle *)

Lemma swap_lookup_target (l : list string) i j x :
  i < length l → l !! j = Some x → swap l i j !! i = Some x.
Proof.
  intros Hi Hj. unfold swap.
  pose proof (lookup_lt_Some _ _ _ Hj) as Hjlt.
  rewrite (list_lookup_total_correct l j x Hj).
  destruct (decide (i = j)) as [->|Hne].
  - rewrite list_lookup_insert_eq by (by rewrite length_insert).
    f_equal. by apply list_lookup_total_correct.
  - rewrite list_lookup_insert_ne by done. by apply list_lookup_insert_eq.
Qed.

Lemma swap_drop (l : list string) i j n :
  i < n → j < n → drop n (swap l i j) = drop n l.
Proof. intros Hi Hj. unfold swap. by rewrite !drop_insert_lt. Qed.

Lemma shuffleFrom_onto i : ∀ l l' : list string,
  i < length l → l' ≡ₚ l → drop (S i) l' = drop (S i) l →
  ∃ draws, length draws = i ∧ shuffleFrom i l draws = Ret (l', []).
Proof.
  induction i as [|k IH]; intros l l' Hi Hp Hd.
  - exists []. split; [done|]. simpl. unfold mret, Rand_ret. do 2 f_equal.
    pose proof (Permutation_length Hp) as Hlen.
    destruct l as [|a t]; [simpl in Hi; lia|]. destruct l' as [|a' t']; [done|].
    simpl in Hd. rewrite !drop_0 in Hd. subst t'. f_equal. symmetry.
    apply Permutation_singleton_inj, (Permutation_app_inv_r t). exact Hp.
  - pose proof (Permutation_length Hp) as Hlen.
    destruct (lookup_lt_is_Some_2 l' (S k)) as [x Hx]; [lia|].
    assert (take (S (S k)) l' ≡ₚ take (S (S k)) l) as Hpt.
    { apply (Permutation_app_inv_r (drop (S (S k)) l)).
      rewrite <-Hd at 1. by rewrite !take_drop. }
    assert (x ∈ take (S (S k)) l) as Hin.
    { rewrite <-Hpt. apply elem_of_take. exists (S k). split; [done|lia]. }
    apply elem_of_take in Hin as (j & Hj & Hjlt).
    destruct (IH (swap l (S k) j) l') as (draws & Hdl & Hrun).
    + rewrite swap_length. lia.
    + rewrite Hp. symmetry. apply swap_Permutation; [lia|by eapply lookup_lt_Some].
    + rewrite (drop_S l' x (S k)) by done.
      rewrite (drop_S (swap l (S k) j) x (S k)) by (apply swap_lookup_target; [lia|done]).
      f_equal. rewrite swap_drop by lia. done.
    + exists (j :: draws). split; [simpl; lia|].
      change (shuffleFrom (S k) l (j :: draws))
        with (Rand_bind _ _ (λ j', shuffleFrom k (swap l (S k) j')) (randomInt 0 (S k + 1))
                (j :: draws)).
      unfold Rand_bind. rewrite randomInt_cons by lia.
      by rewrite Nat.mod_small by lia.
Qed.

(** X2: every rearrangement of the array is returned by [shuffleArray] on
    some [length - 1] draws. *)
Theorem shuffleArray_onto (array shuffled : list string) :
  shuffled ≡ₚ array →
  ∃ draws, length draws = length array - 1
           ∧ shuffleArray array draws = Ret (shuffled, []).
Proof.
  intros Hp. unfold shuffleArray.
  destruct array as [|a t].
  { apply Permutation_nil_r in Hp as ->. by exists []. }
  apply shuffleFrom_onto; [simpl; lia|done|].
  pose proof (Permutation_length Hp) as Hlen. simpl in *.
  rewrite Nat.sub_0_r.
  change (drop (S (length t)) (a :: t)) with (drop (length t) t).
  rewrite drop_all. apply drop_ge. lia.
Qed.

Lemma shuffleArray_onto_witness :
  ["🔥"; "🍎"; "🎧"] ≡ₚ DEMO_SECRET
  ∧ ∃ draws, length draws = length DEMO_SECRET - 1
             ∧ shuffleArray DEMO_SECRET draws = Ret (["🔥"; "🍎"; "🎧"], []).
Proof.
  assert (["🔥"; "🍎"; "🎧"] ≡ₚ DEMO_SECRET) as Hp.
  { exact (Permutation_cons_append ["🍎"; "🎧"] "🔥"). }
  split; [exact Hp|].
  exact (shuffleArray_onto DEMO_SECRET ["🔥"; "🍎"; "🎧"] Hp).
Defined.

(** ** The grid for any pattern *)

(** X3: for any secret pattern [generateShuffledGrid] never throws; a grid it
    returns is a rearrangement of the pattern followed by different symbols
    of the pool that are not in the pattern, 9 symbols in all (as many as the
    pattern has when that is more); and some draws make it return. *)
Theorem generateShuffledGrid_any_pattern secretPattern :
  (∀ draws,
     match generateShuffledGrid secretPattern draws with
     | Ret (grid, _) =>
         ∃ decoys, grid ≡ₚ secretPattern ++ decoys
                   ∧ NoDup decoys
                   ∧ (∀ x, x ∈ decoys → x ∈ EMOJI_POOL ∧ x ∉ secretPattern)
                   ∧ length grid = 9 `max` length secretPattern
     | Throw _ => False
     | Starved => True
     end)
  ∧ ∃ draws grid rest, generateShuffledGrid secretPattern draws = Ret (grid, rest).
Proof.
  split.
  - intros draws.
    destruct (generateShuffledGrid secretPattern draws) as [[grid rest]|e|] eqn:Hgen;
      [|by apply generateShuffledGrid_no_throw in Hgen|done].
    destruct (decide (length secretPattern ≤ 9)) as [Hle|Hgt].
    + apply generate_ret in Hgen as (decoys & Hp & Hnd & Hnew & Hlen).
      exists decoys. split_and!; [done..|]. rewrite Hlen by done. lia.
    + unfold generateShuffledGrid in Hgen.
      rewrite generate_unfold, fillGrid_full in Hgen by lia.
      pose proof (shuffleArray_spec secretPattern draws) as Hspec.
      destruct (decide _); [|congruence].
      destruct Hspec as (l' & Heq & Hp). rewrite Heq in Hgen. injection Hgen as -> _.
      exists []. rewrite app_nil_r.
      split_and!; [done|constructor|by intros ? ?%elem_of_nil|]. rewrite Hp. lia.
  - destruct (decide (length secretPattern ≤ 9)) as [Hle|Hgt].
    + destruct (releases_exist EMOJI_POOL secretPattern) as [draws Hrel];
        [apply EMOJI_POOL_suffices|].
      destruct (generate_releases _ _ _ Hle Hrel) as (grid & rest & Hgen & _). eauto.
    + exists (replicate (length secretPattern) 0).
      unfold generateShuffledGrid. rewrite generate_unfold, fillGrid_full by lia.
      pose proof (shuffleArray_spec secretPattern (replicate (length secretPattern) 0))
        as Hspec.
      rewrite decide_True in Hspec by (rewrite length_replicate; lia).
      destruct Hspec as (l' & -> & _). eauto.
Qed.

(** ** The first generation: guesses are free *)

(** X17: in the first generation a candidate that does not match, or is no
    array, costs nothing: after any run of such requests the table is the
    one it was, and the matching candidate still gets [PASS]. *)
Theorem legacy_no_attempt_limit sessions sid s guesses answer :
  sessions !! sid = Some s →
  Forall (λ g, Legacy.hash g ≠ Ret (Legacy.hash_ s)) guesses →
  Legacy.hash answer = Ret (Legacy.hash_ s) →
  legacy_guesses sessions (JStr sid) guesses = sessions
  ∧ Legacy.verify_auth (legacy_guesses sessions (JStr sid) guesses) (JStr sid) answer
    = Ret (delete sid sessions, Response 200 [("result", JStr "PASS")]).
Proof.
  intros Hs Hg Ha.
  assert (legacy_guesses sessions (JStr sid) guesses = sessions) as Hsame.
  { unfold legacy_guesses. induction Hg as [|g guesses Hg _ IH]; [done|].
    simpl. unfold Legacy.verify_auth at 2. simpl. rewrite Hs.
    destruct (Legacy.hash g) as [h| |]; [|done..].
    destruct (String.eqb_spec h (Legacy.hash_ s)) as [->|Hne]; [done|]. exact IH. }
  split; [done|]. rewrite Hsame. unfold Legacy.verify_auth. simpl.
  by rewrite Hs, Ha, String.eqb_refl.
Qed.

Lemma legacy_no_attempt_limit_witness :
  let s := Legacy.mkSession
             "71d9d0d740e5d44281516dc085c9ad814e4ea9570dcdcfd01cbb1971862113c8"
             (JStr "U123") in
  let guesses := [JArr demo_guess; JNull; JArr []; JArr demo_guess; JStr "🍎"] in
  (legacy_table !! demo_uuid = Some s
   ∧ Forall (λ g, Legacy.hash g ≠ Ret (Legacy.hash_ s)) guesses
   ∧ Legacy.hash demo_answer = Ret (Legacy.hash_ s))
  ∧ legacy_guesses legacy_table (JStr demo_uuid) guesses = legacy_table
  ∧ Legacy.verify_auth (legacy_guesses legacy_table (JStr demo_uuid) guesses)
      (JStr demo_uuid) demo_answer
    = Ret (delete demo_uuid legacy_table, Response 200 [("result", JStr "PASS")]).
Proof.
  intros s guesses.
  assert (legacy_table !! demo_uuid = Some s) as Hs by (vm_compute; reflexivity).
  assert (Forall (λ g, Legacy.hash g ≠ Ret (Legacy.hash_ s)) guesses) as Hg.
  { repeat constructor; vm_compute; discriminate. }
  assert (Legacy.hash demo_answer = Ret (Legacy.hash_ s)) as Ha by (vm_compute; reflexivity).
  split; [by repeat split|].
  exact (legacy_no_attempt_limit legacy_table demo_uuid s guesses demo_answer Hs Hg Ha).
Defined.

(** X18: the handler of the first generation throws, a [TypeError], exactly
    when the request has no body, or the session id is that of a stored
    session and the input is no array or an array with an element that
    cannot be converted to a string; for an unknown id it answers without
    looking at the input. *)
Theorem legacy_throws_iff sessions body e :
  Legacy.post_verify_auth sessions body = Throw e
  ↔ e = "TypeError"
    ∧ (has_body body = false
       ∨ (∃ sid, read "session_id" body = JStr sid ∧ is_Some (sessions !! sid))
         ∧ (isArray (read "input" body) = false
            ∨ ∃ x, x ∈ elems_of (read "input" body) ∧ toString x = None)).
Proof.
  destruct (has_body body) eqn:Hb; cycle 1.
  { destruct body; try discriminate; simpl; (split; [intros [= <-]; eauto|by intros [-> _]]). }
  assert (Legacy.post_verify_auth sessions body
          = Legacy.verify_auth sessions (read "session_id" body) (read "input" body)) as ->.
  { by destruct body. }
  generalize (read "session_id" body) (read "input" body). intros session_id input.
  unfold Legacy.verify_auth, Legacy.get. split.
  - destruct session_id as [| | | |sid| | |]; try done.
    destruct (sessions !! sid) as [s|] eqn:Hs; [|done].
    destruct input as [| | | | |elems| |]; simpl; try (intros [= <-]; eauto 10).
    destruct (join_elems "|" elems) eqn:Hj; simpl; [done|].
    intros [= <-]. apply join_elems_None in Hj. eauto 10.
  - intros (-> & [[=]|[(sid & -> & [s Hs]) Hin]]). rewrite Hs.
    destruct Hin as [Harr|(x & Hx & Hn)]; [by destruct input|].
    destruct input as [| | | | |elems| |]; simpl in *; try done.
    assert (join_elems "|" elems = None) as -> by (apply join_elems_None; eauto).
    done.
Qed.

Lemma legacy_throws_iff_witness :
  let body := JObj [("session_id", JStr demo_uuid); ("input", JArr demo_crash)] in
  Legacy.post_verify_auth legacy_table body = Throw "TypeError"
  ∧ Legacy.post_verify_auth legacy_table JUndefined = Throw "TypeError"
  ∧ Legacy.post_verify_auth legacy_table
      (JObj [("session_id", JStr demo_uuid); ("input", JStr "🍎")]) = Throw "TypeError"
  ∧ ∃ answer, Legacy.post_verify_auth legacy_table
                (JObj [("session_id", JStr "unknown"); ("input", JStr "🍎")]) = Ret answer.
Proof.
  intros body. split.
  - apply (proj2 (legacy_throws_iff legacy_table body "TypeError")).
    split; [done|]. right. split.
    + exists demo_uuid. split; [done|]. by eexists.
    + right. exists unprintable. split; [apply list_elem_of_here|done].
  - split; [done|]. split; [done|]. by eexists.
Defined.

Lemma legacy_replay_fails_witness :
  (Legacy.verify_auth legacy_table (JStr demo_uuid) demo_answer
   = Ret (delete demo_uuid legacy_table, Response 200 [("result", JStr "PASS")])
   ∧ field "result" (Response 200 [("result", JStr "PASS")]) = JStr "PASS")
  ∧ Legacy.verify_auth (delete demo_uuid legacy_table) (JStr demo_uuid) demo_answer
    = Ret (delete demo_uuid legacy_table, Response 200 [("result", JStr "FAIL")]).
Proof.
  assert (Legacy.verify_auth legacy_table (JStr demo_uuid) demo_answer
          = Ret (delete demo_uuid legacy_table, Response 200 [("result", JStr "PASS")]))
    as H by (vm_compute; reflexivity).
  split; [split; [exact H|reflexivity]|].
  exact (legacy_replay_fails legacy_table (JStr demo_uuid) demo_answer
           (delete demo_uuid legacy_table) (Response 200 [("result", JStr "PASS")])
           demo_answer H eq_refl).
Defined.

(** ** The page script *)




(** X20: once three icons are selected no click changes the selection, so
    every later click on [verify] posts the same body and gets the answer
    the same request would get. *)
Theorem ui_selection_freezes st cs sessions now iso :
  length (UI.selected st) = 3 →
  UI.verify_body (UI.clicks cs st) = UI.verify_body st
  ∧ verify_auth sessions (UI.verify_body (UI.clicks cs st)).1
      (UI.verify_body (UI.clicks cs st)).2 now iso
    = verify_auth sessions (UI.verify_body st).1 (UI.verify_body st).2 now iso.
Proof.
  intros Hlen.
  assert (UI.clicks cs st = st) as ->; [|done].
  unfold UI.clicks. induction cs as [|c cs IH]; [done|]. simpl.
  assert (UI.select c.1 c.2 st = st) as ->; [|done].
  unfold UI.select. by rewrite Hlen.
Qed.

Lemma ui_selection_freezes_witness :
  let st := UI.clicks [("🍎", 6); ("🎧", 4); ("🚀", 7)] UI.initial in
  let cs := [("🔥", 3); ("🎯", 0)] in
  length (UI.selected st) = 3
  ∧ UI.verify_body (UI.clicks cs st) = UI.verify_body st
  ∧ verify_auth demo_table (UI.verify_body (UI.clicks cs st)).1
      (UI.verify_body (UI.clicks cs st)).2 2000 "t"
    = verify_auth demo_table (UI.verify_body st).1 (UI.verify_body st).2 2000 "t".
Proof.
  intros st cs.
  assert (length (UI.selected st) = 3) as H by reflexivity.
  split; [exact H|].
  exact (ui_selection_freezes st cs demo_table 2000 "t" H).
Defined.

(** X21: while fewer than three icons are selected, the body the page posts
    is answered 400 [INVALID_REQUEST] by [/verify-auth] and the table stays
    as it was: no attempt is counted. *)
Theorem ui_incomplete_selection_rejected st sessions now iso :
  length (UI.selected st) < 3 →
  let call := verify_auth sessions (UI.verify_body st).1 (UI.verify_body st).2 now iso in
  call.1 = sessions ∧ status call.2 = 400
  ∧ field "error" call.2 = JStr "INVALID_REQUEST".
Proof.
  intros Hlen call. subst call.
  assert (valid_request (UI.verify_body st).1 (UI.verify_body st).2 = false) as Hv.
  { destruct (valid_request _ _) eqn:Hv; [|done].
    apply valid_request_spec in Hv as (sid & elems & _ & _ & Hin & Hl).
    simpl in Hin. injection Hin as <-. rewrite length_fmap in Hl. lia. }
  by destruct (verify_auth_invalid sessions _ _ now iso Hv) as [msg ->].
Qed.

Lemma ui_incomplete_selection_rejected_witness :
  let st := UI.State ["🍎"; "🎧"] (JStr demo_uuid) ∅ ∅ in
  let call := verify_auth demo_table (UI.verify_body st).1 (UI.verify_body st).2 2000 "t" in
  length (UI.selected st) < 3
  ∧ call.1 = demo_table ∧ status call.2 = 400
  ∧ field "error" call.2 = JStr "INVALID_REQUEST".
Proof.
  intros st call.
  assert (length (UI.selected st) < 3) as H by (simpl; lia).
  split; [exact H|].
  exact (ui_incomplete_selection_rejected st demo_table 2000 "t" H).
Defined.
